(** * conversation-bot: the voice widget of [SpeechToText.tsx] and the
    generation hook of [googleGemini.ts], embedded and checked against
    their specification.

    Sources embedded:
    - [src/app/components/SpeechToText.tsx]  (component [EnhancedVoiceRecognition])
    - [src/app/utils/googleGemini.ts]        (module initialisation, [useGeminiAPI])

    JavaScript strings are modelled as [string] (a sequence of 8-bit code
    units), arrays as [list], React state cells as record fields updated
    in program order, and the three platform capabilities (recognition,
    synthesis, remote generation) as explicit data that the handlers read
    and write. *)

From Stdlib Require Import String Ascii List Arith Bool Lia.
From Equations Require Import Equations.
Import ListNotations.
Open Scope string_scope.
Open Scope list_scope.

(* ===================================================================== *)
(** ** The JavaScript built-ins the source calls *)
(* ===================================================================== *)

Module JS.

(** [String.prototype.split] with a separator of one code unit: the
    string is cut at every occurrence of [sep]; [cur] is the piece
    being scanned.  ["".split(" ")] is [[""]], never the empty array. *)
Fixpoint split_from (sep : ascii) (cur s : string) : list string :=
  match s with
  | EmptyString => [cur]
  | String ch rest =>
      if Ascii.eqb ch sep
      then cur :: split_from sep EmptyString rest
      else split_from sep (cur ++ String ch EmptyString) rest
  end.

Definition split (sep : ascii) (s : string) : list string :=
  split_from sep EmptyString s.

(** [Array.prototype.join]: the elements with [sep] between
    consecutive ones; the empty array joins to the empty string. *)
Definition join (sep : string) (l : list string) : string :=
  String.concat sep l.

(** [Array.prototype.slice(start, end)] for non-negative indexes: the
    elements at positions [start <= p < min end length]. *)
Definition slice {A : Type} (l : list A) (start end_ : nat) : list A :=
  firstn (end_ - start) (skipn start l).

(** White space of [String.prototype.trim] among 8-bit code units:
    TAB, LF, VT, FF, CR, SPACE and NBSP. *)
Definition isWhiteSpace (ch : ascii) : bool :=
  let n := nat_of_ascii ch in
  ((9 <=? n)%nat && (n <=? 13)%nat) || (n =? 32)%nat || (n =? 160)%nat.

Fixpoint trimStart (s : string) : string :=
  match s with
  | EmptyString => EmptyString
  | String ch rest => if isWhiteSpace ch then trimStart rest else s
  end.

(** [trimEnd] drops the trailing white space: a character is kept when
    it is not white space or when something is kept after it. *)
Fixpoint trimEnd (s : string) : string :=
  match s with
  | EmptyString => EmptyString
  | String ch rest =>
      match trimEnd rest with
      | EmptyString => if isWhiteSpace ch then EmptyString
                       else String ch EmptyString
      | kept => String ch kept
      end
  end.

Definition trim (s : string) : string := trimEnd (trimStart s).

(** Truthiness of a string in a condition: only [""] is falsy. *)
Definition truthy (s : string) : bool :=
  match s with EmptyString => false | String _ _ => true end.

End JS.

Definition space : ascii := " "%char.

(* ===================================================================== *)
(** ** Playback segmenter: the chunks of [chunkAndSpeak] *)
(* ===================================================================== *)

(** [const chunkSize = 25;] *)
Definition chunkSize : nat := 25.

(** The loop
    [for (let i = 0; i < words.length; i += chunkSize)
       chunks.push(words.slice(i, i + chunkSize).join(" "));]
    as a function of the loop variable [i] and of the array [chunks]
    built so far.  It terminates because [chunkSize] is positive. *)
Equations? chunkLoop (words : list string) (i : nat) (chunks : list string)
  : list string by wf (length words - i) lt :=
  chunkLoop words i chunks with lt_dec i (length words) := {
    | left _ =>
        chunkLoop words (i + chunkSize)
          (chunks ++ [JS.join " " (JS.slice words i (i + chunkSize))]);
    | right _ => chunks }.
Proof. unfold chunkSize. lia. Qed.

(** The array [chunks] that [chunkAndSpeak(text)] computes before it
    touches the synthesis capability. *)
Definition computeChunks (text : string) : list string :=
  let words := JS.split space text in
  chunkLoop words 0 [].

(* ===================================================================== *)
(** ** Data of the three capabilities *)
(* ===================================================================== *)

(** [interface SpeechRecognitionAlternative]; the confidence is a number
    in [0,1] that the component never reads, kept here in percent. *)
Record SpeechRecognitionAlternative := {
  transcript : string;
  confidence : nat }.

(** [interface SpeechRecognitionResult]: the finalisation flag and the
    alternative at index [0], the only one the component reads. *)
Record SpeechRecognitionResult := {
  isFinal : bool;
  alt0 : SpeechRecognitionAlternative }.

(** [interface SpeechRecognitionEvent]. *)
Record SpeechRecognitionEvent := {
  resultIndex : nat;
  results : list SpeechRecognitionResult }.

Definition SpeechSynthesisVoice : Type := string.

(** A call [speakChunk(chunkIndex, voices)], together with the array
    [chunks] of the [chunkAndSpeak] invocation whose closure it lives in. *)
Record SpeakChunkCall := {
  sc_chunks : list string;
  sc_index : nat;
  sc_voices : list SpeechSynthesisVoice }.

(** [SpeechSynthesisUtterance] as [speakChunk] fills it in.  The rate is
    in tenths.  [utt_onend] is the call that the [onend] handler hands to
    [setTimeout]. *)
Record Utterance := {
  utt_text : string;
  utt_voice : option SpeechSynthesisVoice;
  utt_rate : nat;
  utt_onend : SpeakChunkCall }.

(** [window.speechSynthesis]: the utterances submitted and not yet begun,
    the utterance being spoken, the voice list, and the handler stored in
    [onvoiceschanged] (a closure over the array [chunks]). *)
Record SpeechSynthesis := {
  queue : list Utterance;
  current : option Utterance;
  voices : list SpeechSynthesisVoice;
  onvoiceschanged : option (list string) }.

(** A thrown JavaScript value: an [Error] with its message, or anything
    else. *)
Inductive JsValue :=
| JsError (message : string)
| JsOther (shown : string).

(** How the awaited remote call of [generateContent] settles: the text of
    the completion, or a value thrown by [model.generateContent] or by
    [result.response.text()] (both are inside the same [try]). *)
Inductive Outcome :=
| Fulfilled (generatedText : string)
| Rejected (thrown : JsValue).

(* ===================================================================== *)
(** ** State *)
(* ===================================================================== *)

(** The six [useState] cells of [EnhancedVoiceRecognition]. *)
Record Widget := {
  isListening : bool;
  text : string;
  interimResult : string;
  isResponding : bool;
  response : string;
  isSpeaking : bool }.

(** The three [useState] cells of [useGeminiAPI]. *)
Record GeminiHook := {
  hookResponse : option string;
  isLoading : bool;
  hookError : option string }.

(** [recognitionRef] and the platform behind it: whether the window
    offers a recognition constructor, whether [recognitionRef.current] is
    set, and how many times [start()] was called on it. *)
Record Recognition := {
  supported : bool;
  refSet : bool;
  startCalls : nat }.

(** The widget in its environment.  [requests] lists the strings passed
    to [model.generateContent], [pendingCalls] counts those not settled
    yet, [submitted] lists the utterances passed to
    [speechSynthesis.speak], [toasts] the texts of [message.error] and
    [consoleErrors] those of [console.error], all oldest first. *)
Record World := {
  ui : Widget;
  hook : GeminiHook;
  recognition : Recognition;
  synth : SpeechSynthesis;
  timers : list SpeakChunkCall;
  submitted : list Utterance;
  requests : list string;
  pendingCalls : nat;
  toasts : list string;
  consoleErrors : list string }.

Definition setIsListening (b : bool) (u : Widget) : Widget :=
  {| isListening := b; text := text u; interimResult := interimResult u;
     isResponding := isResponding u; response := response u;
     isSpeaking := isSpeaking u |}.

(** [setText] takes an updater, as in [setText((prevText) => ...)]. *)
Definition setText (f : string -> string) (u : Widget) : Widget :=
  {| isListening := isListening u; text := f (text u);
     interimResult := interimResult u; isResponding := isResponding u;
     response := response u; isSpeaking := isSpeaking u |}.

Definition setInterimResult (s : string) (u : Widget) : Widget :=
  {| isListening := isListening u; text := text u; interimResult := s;
     isResponding := isResponding u; response := response u;
     isSpeaking := isSpeaking u |}.

Definition setIsResponding (b : bool) (u : Widget) : Widget :=
  {| isListening := isListening u; text := text u;
     interimResult := interimResult u; isResponding := b;
     response := response u; isSpeaking := isSpeaking u |}.

Definition setResponse (s : string) (u : Widget) : Widget :=
  {| isListening := isListening u; text := text u;
     interimResult := interimResult u; isResponding := isResponding u;
     response := s; isSpeaking := isSpeaking u |}.

Definition setIsSpeaking (b : bool) (u : Widget) : Widget :=
  {| isListening := isListening u; text := text u;
     interimResult := interimResult u; isResponding := isResponding u;
     response := response u; isSpeaking := b |}.

Definition upd_ui (f : Widget -> Widget) (w : World) : World :=
  {| ui := f (ui w); hook := hook w; recognition := recognition w;
     synth := synth w; timers := timers w; submitted := submitted w;
     requests := requests w; pendingCalls := pendingCalls w;
     toasts := toasts w; consoleErrors := consoleErrors w |}.

Definition upd_hook (f : GeminiHook -> GeminiHook) (w : World) : World :=
  {| ui := ui w; hook := f (hook w); recognition := recognition w;
     synth := synth w; timers := timers w; submitted := submitted w;
     requests := requests w; pendingCalls := pendingCalls w;
     toasts := toasts w; consoleErrors := consoleErrors w |}.

Definition upd_recognition (f : Recognition -> Recognition) (w : World)
  : World :=
  {| ui := ui w; hook := hook w; recognition := f (recognition w);
     synth := synth w; timers := timers w; submitted := submitted w;
     requests := requests w; pendingCalls := pendingCalls w;
     toasts := toasts w; consoleErrors := consoleErrors w |}.

Definition upd_synth (f : SpeechSynthesis -> SpeechSynthesis) (w : World)
  : World :=
  {| ui := ui w; hook := hook w; recognition := recognition w;
     synth := f (synth w); timers := timers w; submitted := submitted w;
     requests := requests w; pendingCalls := pendingCalls w;
     toasts := toasts w; consoleErrors := consoleErrors w |}.

Definition set_timers (ts : list SpeakChunkCall) (w : World) : World :=
  {| ui := ui w; hook := hook w; recognition := recognition w;
     synth := synth w; timers := ts; submitted := submitted w;
     requests := requests w; pendingCalls := pendingCalls w;
     toasts := toasts w; consoleErrors := consoleErrors w |}.

Definition log_submitted (u : Utterance) (w : World) : World :=
  {| ui := ui w; hook := hook w; recognition := recognition w;
     synth := synth w; timers := timers w;
     submitted := submitted w ++ [u];
     requests := requests w; pendingCalls := pendingCalls w;
     toasts := toasts w; consoleErrors := consoleErrors w |}.

Definition log_request (sent : string) (w : World) : World :=
  {| ui := ui w; hook := hook w; recognition := recognition w;
     synth := synth w; timers := timers w; submitted := submitted w;
     requests := requests w ++ [sent];
     pendingCalls := S (pendingCalls w);
     toasts := toasts w; consoleErrors := consoleErrors w |}.

Definition set_pendingCalls (n : nat) (w : World) : World :=
  {| ui := ui w; hook := hook w; recognition := recognition w;
     synth := synth w; timers := timers w; submitted := submitted w;
     requests := requests w; pendingCalls := n;
     toasts := toasts w; consoleErrors := consoleErrors w |}.

(** [message.error(msg)] *)
Definition message_error (msg : string) (w : World) : World :=
  {| ui := ui w; hook := hook w; recognition := recognition w;
     synth := synth w; timers := timers w; submitted := submitted w;
     requests := requests w; pendingCalls := pendingCalls w;
     toasts := toasts w ++ [msg]; consoleErrors := consoleErrors w |}.

(** [console.error(msg)] *)
Definition console_error (msg : string) (w : World) : World :=
  {| ui := ui w; hook := hook w; recognition := recognition w;
     synth := synth w; timers := timers w; submitted := submitted w;
     requests := requests w; pendingCalls := pendingCalls w;
     toasts := toasts w; consoleErrors := consoleErrors w ++ [msg] |}.

(* ===================================================================== *)
(** ** Recognition coordinator ([SpeechToText.tsx], lines 73-142) *)
(* ===================================================================== *)

(** [initializeSpeechRecognition]: creates the recognition object and
    installs the four handlers below when the window offers a
    constructor, and logs to the console otherwise. *)
Definition initializeSpeechRecognition (w : World) : World :=
  if supported (recognition w)
  then upd_recognition
         (fun r => {| supported := supported r; refSet := true;
                      startCalls := startCalls r |}) w
  else console_error "Speech recognition not supported in this browser" w.

(** [recognitionRef.current.onstart] *)
Definition onstart (u : Widget) : Widget := setIsListening true u.

(** [recognitionRef.current.onerror] *)
Definition onerror (u : Widget) : Widget := setIsListening false u.

(** The body of the loop
    [for (let i = event.resultIndex; i < event.results.length; i++)],
    run over the results at the indexes it visits, in order. *)
Fixpoint onresult_loop (rest : list SpeechRecognitionResult)
    (interimTranscript finalTranscript : string) : string * string :=
  match rest with
  | [] => (interimTranscript, finalTranscript)
  | result :: rest' =>
      let transcript := transcript (alt0 result) in
      if isFinal result
      then onresult_loop rest' interimTranscript
             (finalTranscript ++ (transcript ++ " "))
      else onresult_loop rest' (interimTranscript ++ transcript)
             finalTranscript
  end.

(** [recognitionRef.current.onresult] *)
Definition onresult (event : SpeechRecognitionEvent) (u : Widget) : Widget :=
  let '(interimTranscript, finalTranscript) :=
    onresult_loop (skipn (resultIndex event) (results event)) "" "" in
  let u1 :=
    if JS.truthy finalTranscript
    then setText (fun prevText => (prevText ++ finalTranscript)%string) u
    else u in
  setInterimResult interimTranscript u1.

(** [recognitionRef.current.onend] *)
Definition onend (u : Widget) : Widget := setIsListening false u.

(** [startListening] *)
Definition startListening (w : World) : World :=
  let w1 := upd_ui (setText (fun _ => "")) w in
  let w2 := upd_ui (setInterimResult "") w1 in
  let w3 := if negb (refSet (recognition w2))
            then initializeSpeechRecognition w2 else w2 in
  if refSet (recognition w3)
  then upd_recognition
         (fun r => {| supported := supported r; refSet := refSet r;
                      startCalls := S (startCalls r) |}) w3
  else message_error
         "Failed to start speech recognition. Please try again." w3.

(* ===================================================================== *)
(** ** Playback segmenter ([SpeechToText.tsx], lines 144-196) *)
(* ===================================================================== *)

(** The synthesis capability is the browser's, not the repository's; it
    is modelled by the contract the source relies on.  [speak] appends to
    the queue; [cancel] empties the queue and stops the utterance being
    spoken, which then gets no [end] notification; [speaking] tells
    whether an utterance has begun and not finished.

    The component exists in an earlier revision as well, which differs
    here in two points only: [utterance.onend] calls [speakChunk]
    directly instead of through [setTimeout], and no rate is set.  The
    computation of [chunks], [stopSpeaking] and the voices-changed path
    are the same. *)
Definition speak (u : Utterance) (w : World) : World :=
  log_submitted u
    (upd_synth (fun s => {| queue := queue s ++ [u]; current := current s;
                            voices := voices s;
                            onvoiceschanged := onvoiceschanged s |}) w).

Definition cancel (w : World) : World :=
  upd_synth (fun s => {| queue := []; current := None; voices := voices s;
                         onvoiceschanged := onvoiceschanged s |}) w.

Definition speaking (w : World) : bool :=
  match current (synth w) with Some _ => true | None => false end.

(** The assignment [window.speechSynthesis.onvoiceschanged = handler]. *)
Definition set_onvoiceschanged (handler : option (list string)) (w : World)
  : World :=
  upd_synth (fun s => {| queue := queue s; current := current s;
                         voices := voices s;
                         onvoiceschanged := handler |}) w.

Definition getVoices (w : World) : list SpeechSynthesisVoice :=
  voices (synth w).

(** [speakChunk(chunkIndex, voices)] inside [chunkAndSpeak]. *)
Definition speakChunk (c : SpeakChunkCall) (w : World) : World :=
  if (length (sc_chunks c) <=? sc_index c)%nat
  then upd_ui (setIsSpeaking false) w
  else
    let utterance :=
      {| utt_text := nth (sc_index c) (sc_chunks c) "";
         utt_voice := hd_error (sc_voices c);
         utt_rate := 11;
         utt_onend := {| sc_chunks := sc_chunks c;
                         sc_index := sc_index c + 1;
                         sc_voices := sc_voices c |} |} in
    speak utterance w.

(** [chunkAndSpeak(text)] *)
Definition chunkAndSpeak (text : string) (w : World) : World :=
  let chunks := computeChunks text in
  let voices := getVoices w in
  if (0 <? length voices)%nat
  then upd_ui (setIsSpeaking true)
         (speakChunk {| sc_chunks := chunks; sc_index := 0;
                        sc_voices := voices |} w)
  else set_onvoiceschanged (Some chunks) w.

(** [stopSpeaking] *)
Definition stopSpeaking (w : World) : World :=
  if speaking w then upd_ui (setIsSpeaking false) (cancel w) else w.

(** Notifications of the synthesis capability and of the timer queue. *)

(** The capability begins the utterance at the head of its queue. *)
Definition utteranceBegins (w : World) : World :=
  match current (synth w), queue (synth w) with
  | None, u :: q =>
      upd_synth (fun s => {| queue := q; current := Some u;
                             voices := voices s;
                             onvoiceschanged := onvoiceschanged s |}) w
  | _, _ => w
  end.

(** The utterance being spoken completes and its [onend] runs:
    [setTimeout(() => speakChunk(chunkIndex + 1, voices), -1)]. *)
Definition utteranceEnds (w : World) : World :=
  match current (synth w) with
  | Some u =>
      set_timers (timers w ++ [utt_onend u])
        (upd_synth (fun s => {| queue := queue s; current := None;
                                voices := voices s;
                                onvoiceschanged := onvoiceschanged s |}) w)
  | None => w
  end.

(** The oldest timer fires. *)
Definition timerFires (w : World) : World :=
  match timers w with
  | c :: ts => speakChunk c (set_timers ts w)
  | [] => w
  end.

(** The voice list becomes [vs]; the handler stored in
    [onvoiceschanged], if any, runs:
    [loadedVoices = getVoices(); speakChunk(0, loadedVoices);
     setIsSpeaking(true)]. *)
Definition voicesChanged (vs : list SpeechSynthesisVoice) (w : World)
  : World :=
  let w1 := upd_synth (fun s => {| queue := queue s; current := current s;
                                   voices := vs;
                                   onvoiceschanged := onvoiceschanged s |})
              w in
  match onvoiceschanged (synth w1) with
  | Some chunks =>
      let loadedVoices := getVoices w1 in
      upd_ui (setIsSpeaking true)
        (speakChunk {| sc_chunks := chunks; sc_index := 0;
                       sc_voices := loadedVoices |} w1)
  | None => w1
  end.

(* ===================================================================== *)
(** ** Response generator ([googleGemini.ts]) *)
(* ===================================================================== *)

(** What the module holds once its top level has run. *)
Record GeminiModule := {
  apiKey : string;
  modelName : string }.

(** The top level of [googleGemini.ts], run once when the module is
    loaded, as a function of [process.env.NEXT_PUBLIC_GEMINI_API_KEY]
    ([None] for [undefined]): [inl] is the value thrown. *)
Definition moduleInit (env : option string) : JsValue + GeminiModule :=
  match env with
  | None => inl (JsError "Missing Gemini API Key")
  | Some API_KEY =>
      if negb (JS.truthy API_KEY)
      then inl (JsError "Missing Gemini API Key")
      else inr {| apiKey := API_KEY; modelName := "gemini-1.5-flash" |}
  end.

(** The string literal appended to the prompt in [generateContent]. *)
Definition brevitySuffix : string :=
  "you can say in it 2 to 3 sentences only yu don thave to generate a huge response for this.".

(** [generateContent(prompt)] up to its [await]: the three state updates
    and the call [model.generateContent(prompt + suffix)]. *)
Definition generateContent_call (prompt : string) (w : World) : World :=
  let w1 := upd_hook (fun h => {| hookResponse := hookResponse h;
                                  isLoading := true;
                                  hookError := hookError h |}) w in
  let w2 := upd_hook (fun h => {| hookResponse := hookResponse h;
                                  isLoading := isLoading h;
                                  hookError := None |}) w1 in
  let w3 := upd_hook (fun h => {| hookResponse := None;
                                  isLoading := isLoading h;
                                  hookError := hookError h |}) w2 in
  log_request (prompt ++ brevitySuffix) w3.

(** [generateContent] after its [await]: [inl] is the returned text,
    [inr] the message of the [Error] thrown to the caller. *)
Definition generateContent_settled (o : Outcome) (w : World)
  : World * (string + string) :=
  match o with
  | Fulfilled generatedText =>
      let w1 := upd_hook (fun h => {| hookResponse := Some generatedText;
                                      isLoading := isLoading h;
                                      hookError := hookError h |}) w in
      (upd_hook (fun h => {| hookResponse := hookResponse h;
                             isLoading := false;
                             hookError := hookError h |}) w1,
       inl generatedText)
  | Rejected err =>
      let error := match err with
                   | JsError message => message
                   | JsOther _ => "An unknown error occurred"
                   end in
      let w1 := upd_hook (fun h => {| hookResponse := hookResponse h;
                                      isLoading := isLoading h;
                                      hookError := Some error |}) w in
      (upd_hook (fun h => {| hookResponse := hookResponse h;
                             isLoading := false;
                             hookError := hookError h |}) w1,
       inr error)
  end.

(* ===================================================================== *)
(** ** The generation effect ([SpeechToText.tsx], lines 199-221) *)
(* ===================================================================== *)

(** [generateAIResponse] up to its [await]; [text] is the value of the
    state cell captured by the effect. *)
Definition generateAIResponse_call (text : string) (w : World) : World :=
  if JS.truthy (JS.trim text)
  then generateContent_call text (upd_ui (setIsResponding true) w)
  else w.

(** [generateAIResponse] after its [await]: the rest of the [try], the
    [catch] and the [finally]. *)
Definition generateAIResponse_settled (o : Outcome) (w : World) : World :=
  let '(w1, r) := generateContent_settled o w in
  let w2 :=
    match r with
    | inl result => chunkAndSpeak result (upd_ui (setResponse result) w1)
    | inr error =>
        message_error "Failed to generate response. Please try again."
          (console_error error w1)
    end in
  upd_ui (setIsResponding false) w2.

(** The body of the [useEffect]. *)
Definition generationEffect (w : World) : World :=
  let text := text (ui w) in
  if negb (isListening (ui w)) && JS.truthy (JS.trim text)
  then generateAIResponse_call text w
  else w.

(* ===================================================================== *)
(** ** The widget as a reactive system *)
(* ===================================================================== *)

(** Everything that can happen to a mounted widget: the three handlers
    bound to controls, the notifications of the capabilities, and the
    settling of a remote call. *)
Inductive Event :=
| StartListening
| StopSpeaking
| SpeakAgain
| EditText (value : string)
| RecognitionStart
| RecognitionError
| RecognitionResult (event : SpeechRecognitionEvent)
| RecognitionEnd
| GenerationSettled (o : Outcome)
| UtteranceBegins
| UtteranceEnds
| TimerFires
| VoicesChanged (vs : list SpeechSynthesisVoice).

Definition handle (ev : Event) (w : World) : World :=
  match ev with
  | StartListening => startListening w
  | StopSpeaking => stopSpeaking w
  | SpeakAgain => chunkAndSpeak (response (ui w)) w
  | EditText value => upd_ui (setText (fun _ => value)) w
  | RecognitionStart => upd_ui onstart w
  | RecognitionError => upd_ui onerror w
  | RecognitionResult event => upd_ui (onresult event) w
  | RecognitionEnd => upd_ui onend w
  | GenerationSettled o =>
      match pendingCalls w with
      | 0 => w
      | S n => generateAIResponse_settled o (set_pendingCalls n w)
      end
  | UtteranceBegins => utteranceBegins w
  | UtteranceEnds => utteranceEnds w
  | TimerFires => timerFires w
  | VoicesChanged vs => voicesChanged vs w
  end.

(** The effect has the dependencies
    [[text, generateContent, isListening, chunkAndSpeak]], of which the
    two callbacks never change: it runs after a render in which [text]
    or [isListening] changed. *)
Definition depsChanged (before after : Widget) : bool :=
  negb (String.eqb (text before) (text after))
  || negb (Bool.eqb (isListening before) (isListening after)).

Definition react (ev : Event) (w : World) : World :=
  let w' := handle ev w in
  if depsChanged (ui w) (ui w') then generationEffect w' else w'.

Definition run (evs : list Event) (w : World) : World :=
  fold_left (fun w ev => react ev w) evs w.

(** A freshly mounted widget: the initial values of the state cells, and
    [initializeSpeechRecognition] run by the mount effect. *)
Definition mounted (recognitionSupported : bool)
    (vs : list SpeechSynthesisVoice) : World :=
  initializeSpeechRecognition
    {| ui := {| isListening := false; text := ""; interimResult := "";
                isResponding := false; response := "";
                isSpeaking := false |};
       hook := {| hookResponse := None; isLoading := false;
                  hookError := None |};
       recognition := {| supported := recognitionSupported;
                         refSet := false; startCalls := 0 |};
       synth := {| queue := []; current := None; voices := vs;
                   onvoiceschanged := None |};
       timers := []; submitted := []; requests := []; pendingCalls := 0;
       toasts := []; consoleErrors := [] |}.

(** One recognition session, from the press on the start control to the
    end notification, with the given updates in between. *)
Definition session (updates : list SpeechRecognitionEvent) : list Event :=
  StartListening :: RecognitionStart
    :: map RecognitionResult updates ++ [RecognitionEnd].

(* ===================================================================== *)
(** ** Notions of the specification *)
(* ===================================================================== *)

(** Follows the specification's words, not the source: the
    whitespace-separated words of a string are its maximal runs of
    characters that are not white space. *)
Fixpoint ws_words_from (cur s : string) : list string :=
  match s with
  | EmptyString => if JS.truthy cur then [cur] else []
  | String ch rest =>
      if JS.isWhiteSpace ch
      then (if JS.truthy cur then [cur] else []) ++ ws_words_from "" rest
      else ws_words_from (cur ++ String ch "") rest
  end.

Definition ws_words (s : string) : list string := ws_words_from "" s.

(** [ceil(w / c)] on natural numbers. *)
Definition ceilDiv (w c : nat) : nat := (w + c - 1) / c.

(** Follows the specification's words: the fragments of an update are
    the results it newly delivers, those from [resultIndex] on. *)
Definition fragments (update : SpeechRecognitionEvent)
  : list SpeechRecognitionResult :=
  skipn (resultIndex update) (results update).

Definition fragmentText (r : SpeechRecognitionResult) : string :=
  transcript (alt0 r).

(** The texts of the fragments marked final, in delivery order. *)
Definition finalFragments (updates : list SpeechRecognitionEvent)
  : list string :=
  flat_map (fun update => map fragmentText (filter isFinal (fragments update)))
    updates.

(** The texts of the fragments of one update that are not marked final. *)
Definition interimFragments (update : SpeechRecognitionEvent)
  : list string :=
  map fragmentText (filter (fun r => negb (isFinal r)) (fragments update)).

(** Concatenation of a list of strings, in order. *)
Definition concatAll (l : list string) : string :=
  fold_right String.append "" l.

(** Each fragment followed by one space, all concatenated. *)
Definition eachWithSpace (l : list string) : string :=
  concatAll (map (fun f => (f ++ " ")%string) l).

(* ===================================================================== *)
(** ** Auxiliary definitions for the proofs *)
(* ===================================================================== *)

(** The successive windows of [chunkSize] elements of a list; [fuel]
    bounds their number. *)
Fixpoint windows (fuel : nat) (l : list string) : list (list string) :=
  match fuel with
  | 0 => []
  | S fuel' =>
      match l with
      | [] => []
      | _ :: _ => firstn chunkSize l :: windows fuel' (skipn chunkSize l)
      end
  end.

(** A string without any occurrence of [sep]. *)
Fixpoint free_of (sep : ascii) (s : string) : Prop :=
  match s with
  | EmptyString => True
  | String ch rest => Ascii.eqb ch sep = false /\ free_of sep rest
  end.

(** The input on which a word count of 25 and the pieces of the source
    disagree: 25 one-letter words, two spaces between consecutive ones. *)
Definition doubleSpaced : string := JS.join "  " (repeat "a" 25).

(** A recognition result with the given flag and text. *)
Definition fragment (final : bool) (said : string)
  : SpeechRecognitionResult :=
  {| isFinal := final;
     alt0 := {| transcript := said; confidence := 90 |} |}.

(** An update that delivers one result at index 0. *)
Definition update1 (final : bool) (said : string) : SpeechRecognitionEvent :=
  {| resultIndex := 0; results := [fragment final said] |}.

(** A reply of 26 one-letter words: two chunks, of 25 words and of 1. *)
Definition twoChunkReply : string := JS.join " " (repeat "w" 26).

(** A widget mounted before the voice list is populated hears a
    question, receives [twoChunkReply], starts playing it when the voices
    arrive, and is stopped while chunk 0 is playing. *)
Definition untilStop : list Event :=
  session [update1 true "tell me a story"]
    ++ [GenerationSettled (Fulfilled twoChunkReply);
        VoicesChanged ["Alice"];
        UtteranceBegins;
        StopSpeaking].

(** What the capabilities may deliver afterwards: the voice list changes
    once more, and utterances begin and end. *)
Definition afterStop : list Event :=
  [VoicesChanged ["Alice"; "Bob"];
   UtteranceBegins; UtteranceEnds; TimerFires; UtteranceBegins].


(** A widget that has heard "hello world" finalized and is still
    listening. *)
Definition heardHello : World :=
  run [StartListening; RecognitionStart;
       RecognitionResult (update1 false "hello wor");
       RecognitionResult (update1 true "hello world")]
    (mounted true ["Alice"]).


(** The utterance that [speakChunk] builds for a call whose index is in
    range. *)
Definition utteranceOf (c : SpeakChunkCall) : Utterance :=
  {| utt_text := nth (sc_index c) (sc_chunks c) "";
     utt_voice := hd_error (sc_voices c);
     utt_rate := 11;
     utt_onend := {| sc_chunks := sc_chunks c;
                     sc_index := sc_index c + 1;
                     sc_voices := sc_voices c |} |}.

(** What the capability and the timer queue deliver for one utterance
    played to its end, and for [n] utterances played one after the
    other. *)
Definition playCycle : list Event :=
  [UtteranceBegins; UtteranceEnds; TimerFires].

Fixpoint cycles (n : nat) : list Event :=
  match n with
  | 0 => []
  | S n' => playCycle ++ cycles n'
  end.

(** Whether a handler is stored in [onvoiceschanged]. *)
Definition handlerStored (w : World) : bool :=
  match onvoiceschanged (synth w) with Some _ => true | None => false end.

(** The utterance of index [k] of a playback is queued, nothing is being
    spoken and no timer is pending. *)
Definition queuedAt (chunks : list string)
    (vs : list SpeechSynthesisVoice) (k : nat) (w : World) : Prop :=
  queue (synth w)
  = [utteranceOf {| sc_chunks := chunks; sc_index := k; sc_voices := vs |}]
  /\ current (synth w) = None /\ timers w = [].

(** A widget with voices loaded that is speaking the first chunk of
    [twoChunkReply], which it received as the reply to a question. *)
Definition speakingReply : World :=
  run [GenerationSettled (Fulfilled twoChunkReply); UtteranceBegins]
    (run (session [update1 true "tell me a story"])
       (mounted true ["Alice"])).

(** The widget of [speakingReply] once the first chunk has been spoken
    to its end: the call for the second chunk waits in the timer queue. *)
Definition betweenChunks : World := run [UtteranceEnds] speakingReply.



(* ===================================================================== *)
(** ** Facts about the built-ins *)
(* ===================================================================== *)

Section Builtins.

Local Open Scope string_scope.

Lemma append_nil_r (s : string) : s ++ "" = s.
Proof. induction s as [|ch s IH]; simpl; [reflexivity | now rewrite IH]. Qed.

Lemma append_assoc (a b c : string) : (a ++ b) ++ c = a ++ (b ++ c).
Proof. induction a as [|ch a IH]; simpl; [reflexivity | now rewrite IH]. Qed.

Lemma truthy_false (s : string) : JS.truthy s = false -> s = "".
Proof. destruct s; simpl; congruence. Qed.

Variable sep : ascii.

Lemma split_from_nonempty (cur s : string) : JS.split_from sep cur s <> [].
Proof.
  revert cur. induction s as [|ch s IH]; intros cur; simpl.
  - discriminate.
  - destruct (Ascii.eqb ch sep); [discriminate | apply IH].
Qed.

Lemma join_cons (x : string) (xs : list string) :
  xs <> [] ->
  JS.join (String sep "") (x :: xs)
  = x ++ String sep (JS.join (String sep "") xs).
Proof. destruct xs; [congruence | reflexivity]. Qed.

(** Joining the pieces gives the string back. *)
Lemma join_split_from (cur s : string) :
  JS.join (String sep "") (JS.split_from sep cur s) = cur ++ s.
Proof.
  revert cur. induction s as [|ch s IH]; intros cur; simpl.
  - now rewrite append_nil_r.
  - destruct (Ascii.eqb_spec ch sep) as [->|Hne].
    + rewrite join_cons by apply split_from_nonempty.
      now rewrite IH.
    + rewrite IH, append_assoc. reflexivity.
Qed.

Lemma free_of_append (a b : string) :
  free_of sep a -> free_of sep b -> free_of sep (a ++ b).
Proof. induction a as [|ch a IH]; simpl; intuition. Qed.

(** Every piece is free of the separator. *)
Lemma split_from_free (cur s : string) :
  free_of sep cur -> Forall (free_of sep) (JS.split_from sep cur s).
Proof.
  revert cur. induction s as [|ch s IH]; intros cur Hcur; simpl.
  - constructor; [assumption | constructor].
  - destruct (Ascii.eqb ch sep) eqn:E.
    + constructor; [assumption | apply IH; exact I].
    + apply IH, free_of_append; simpl; auto.
Qed.

(** Scanning a separator-free prefix only extends the current piece. *)
Lemma split_from_free_prefix (cur x rest : string) :
  free_of sep x ->
  JS.split_from sep cur (x ++ rest) = JS.split_from sep (cur ++ x) rest.
Proof.
  revert cur. induction x as [|ch x IH]; intros cur Hx; simpl in *.
  - now rewrite append_nil_r.
  - destruct Hx as [E Hx]. rewrite E, IH by assumption.
    now rewrite append_assoc.
Qed.

Lemma split_from_sep (cur rest : string) :
  JS.split_from sep cur (String sep rest)
  = cur :: JS.split_from sep "" rest.
Proof. simpl. now rewrite Ascii.eqb_refl. Qed.

(** Splitting the join of separator-free pieces gives the pieces back. *)
Lemma split_join (l : list string) :
  l <> [] -> Forall (free_of sep) l ->
  JS.split sep (JS.join (String sep "") l) = l.
Proof.
  unfold JS.split.
  induction l as [|x l IH]; intros Hne Hfree; [congruence|].
  inversion Hfree as [|? ? Hx Hl]; subst.
  destruct l as [|y l].
  - simpl. rewrite <- (append_nil_r x) at 1.
    rewrite split_from_free_prefix by assumption. reflexivity.
  - rewrite join_cons by discriminate.
    rewrite split_from_free_prefix by assumption.
    rewrite split_from_sep.
    rewrite IH by (assumption || discriminate). reflexivity.
Qed.

End Builtins.

(* ===================================================================== *)
(** ** The chunk sequence *)
(* ===================================================================== *)

Section Chunks.

Lemma chunkSize_pos : 0 < chunkSize.
Proof. unfold chunkSize. lia. Qed.

(** The loop pushes the joined windows of the words from index [i]. *)
Lemma chunkLoop_windows (n : nat) :
  forall words i chunks,
    length words - i <= n ->
    chunkLoop words i chunks
    = chunks ++ map (JS.join " ") (windows n (skipn i words)).
Proof.
  induction n as [|n IH]; intros words i chunks Hn;
    rewrite chunkLoop_equation_1;
    destruct (lt_dec i (length words)) as [Hlt|Hge]; cbn -[windows].
  - lia.
  - now rewrite app_nil_r.
  - pose proof chunkSize_pos.
    rewrite IH by lia.
    pose proof (length_skipn i words) as Hlen.
    destruct (skipn i words) as [|x rest] eqn:E; [simpl in Hlen; lia|].
    cbn [windows map]. rewrite <- E, skipn_skipn.
    unfold JS.slice.
    replace (i + chunkSize - i) with chunkSize by lia.
    rewrite (Nat.add_comm chunkSize i), <- app_assoc. reflexivity.
  - rewrite skipn_all2 by lia. destruct n; now rewrite app_nil_r.
Qed.

Lemma computeChunks_windows (s : string) :
  computeChunks s
  = map (JS.join " ")
      (windows (length (JS.split space s)) (JS.split space s)).
Proof.
  unfold computeChunks. cbv zeta.
  rewrite (chunkLoop_windows (length (JS.split space s))) by lia.
  reflexivity.
Qed.

Lemma ceilDiv_step (m : nat) :
  1 <= m -> S (ceilDiv (m - chunkSize) chunkSize) = ceilDiv m chunkSize.
Proof.
  unfold ceilDiv, chunkSize. intros Hm.
  destruct (le_lt_dec 25 m) as [Hbig|Hsmall].
  - replace (m + 25 - 1) with ((m - 25 + 25 - 1) + 1 * 25) by lia.
    rewrite Nat.div_add by lia. lia.
  - replace (m - 25 + 25 - 1) with 24 by lia.
    rewrite (Nat.div_small 24 25) by lia.
    apply Nat.div_unique with (r := m - 1); lia.
Qed.

Lemma windows_length (n : nat) :
  forall l, length l <= n ->
    length (windows n l) = ceilDiv (length l) chunkSize.
Proof.
  induction n as [|n IH]; intros l Hl.
  - destruct l; [reflexivity | simpl in Hl; lia].
  - destruct l as [|x l]; [reflexivity|].
    pose proof chunkSize_pos.
    cbn [windows length].
    rewrite IH by (rewrite length_skipn; simpl in *; lia).
    rewrite length_skipn. apply (ceilDiv_step (length (x :: l))).
    simpl; lia.
Qed.

Lemma windows_concat (n : nat) :
  forall l, length l <= n -> concat (windows n l) = l.
Proof.
  induction n as [|n IH]; intros l Hl.
  - destruct l; [reflexivity | simpl in Hl; lia].
  - destruct l as [|x l]; [reflexivity|].
    pose proof chunkSize_pos.
    cbn [windows concat].
    rewrite IH by (rewrite length_skipn; simpl in *; lia).
    apply firstn_skipn.
Qed.

Lemma Forall_firstn_skipn {A : Type} (P : A -> Prop) (n : nat)
    (l : list A) :
  Forall P l -> Forall P (firstn n l) /\ Forall P (skipn n l).
Proof.
  intros H. rewrite <- (firstn_skipn n l) in H.
  now apply Forall_app in H.
Qed.

(** Every window is non-empty, has at most [chunkSize] elements, and
    inherits what holds of all the elements. *)
Lemma windows_each (P : string -> Prop) (n : nat) :
  forall l, Forall P l ->
    Forall (fun g => g <> [] /\ length g <= chunkSize /\ Forall P g)
      (windows n l).
Proof.
  induction n as [|n IH]; intros l HP; [constructor|].
  destruct l as [|x l]; [constructor|].
  cbn [windows]. constructor.
  - pose proof chunkSize_pos as Hc. repeat split.
    + destruct chunkSize; [lia | discriminate].
    + rewrite length_firstn. lia.
    + now apply Forall_firstn_skipn.
  - apply IH. now apply Forall_firstn_skipn.
Qed.

(** Every window but the last has exactly [chunkSize] elements. *)
Lemma windows_full (n : nat) :
  forall l, Forall (fun g => length g = chunkSize)
              (removelast (windows n l)).
Proof.
  induction n as [|n IH]; intros l; [constructor|].
  destruct l as [|x l]; [constructor|].
  cbn [windows].
  destruct (windows n (skipn chunkSize (x :: l))) as [|g gs] eqn:E.
  - constructor.
  - change (Forall (fun g => length g = chunkSize)
              (firstn chunkSize (x :: l) :: removelast (g :: gs))).
    constructor.
    + rewrite length_firstn.
      destruct (le_lt_dec chunkSize (length (x :: l))) as [|Hshort];
        [lia|].
      rewrite skipn_all2 in E by lia.
      destruct n; discriminate.
    + rewrite <- E. apply IH.
Qed.

Lemma removelast_map {A B : Type} (f : A -> B) (l : list A) :
  removelast (map f l) = map f (removelast l).
Proof.
  induction l as [|a l IH]; [reflexivity|].
  destruct l as [|b l]; [reflexivity|].
  cbn [map removelast] in *. now rewrite IH.
Qed.

Lemma split_join_space (g : list string) :
  g <> [] -> Forall (free_of space) g ->
  JS.split space (JS.join " " g) = g.
Proof. exact (split_join space g). Qed.

(** Splitting the joined windows gives the windows back. *)
Lemma split_join_windows (ws : list (list string)) :
  Forall (fun g => g <> [] /\ length g <= chunkSize
                   /\ Forall (free_of space) g) ws ->
  map (JS.split space) (map (JS.join " ") ws) = ws.
Proof.
  induction 1 as [|g ws [Hne [_ Hfree]] _ IH]; [reflexivity|].
  cbn [map]. rewrite IH. f_equal.
  now apply (split_join space).
Qed.

Lemma join_app (sep : string) (a b : list string) :
  a <> [] -> b <> [] ->
  JS.join sep (a ++ b)
  = (JS.join sep a ++ sep ++ JS.join sep b)%string.
Proof.
  intros Ha Hb. induction a as [|x a IH]; [congruence|].
  destruct a as [|y a].
  - destruct b; [congruence | reflexivity].
  - change (JS.join sep ((x :: y :: a) ++ b))
      with (x ++ sep ++ JS.join sep ((y :: a) ++ b))%string.
    rewrite IH by discriminate.
    change (JS.join sep (x :: y :: a))
      with (x ++ sep ++ JS.join sep (y :: a))%string.
    now rewrite !append_assoc.
Qed.

(** Joining joined groups is joining their concatenation. *)
Lemma join_concat (sep : string) (ws : list (list string)) :
  Forall (fun g => g <> []) ws ->
  JS.join sep (map (JS.join sep) ws) = JS.join sep (concat ws).
Proof.
  induction 1 as [|g ws Hg Hws IH]; [reflexivity|].
  destruct ws as [|g' ws].
  - cbn [map concat]. now rewrite app_nil_r.
  - change (concat (g :: g' :: ws)) with (g ++ concat (g' :: ws)).
    rewrite join_app.
    + rewrite <- IH. reflexivity.
    + assumption.
    + inversion Hws as [|? ? Hg' _]; subst.
      cbn [concat]. destruct g'; [congruence | discriminate].
Qed.

End Chunks.

(** Claim C1, as stated, fails.  With [w] the number of
    whitespace-separated words, [chunkAndSpeak] does not compute
    [ceil(w / 25)] chunks: 25 one-letter words separated by two spaces
    each give 2 chunks, not 1 (the first holds only 13 of the words), and
    the empty string, which has no word, gives 1 chunk, not 0. *)
Lemma chunk_count_is_not_ceil_of_word_count :
  (length (ws_words doubleSpaced) = 25
   /\ length (computeChunks doubleSpaced) = 2
   /\ length (ws_words (hd "" (computeChunks doubleSpaced))) = 13
   /\ length (computeChunks doubleSpaced)
      <> ceilDiv (length (ws_words doubleSpaced)) chunkSize)
  /\ (ws_words "" = []
      /\ computeChunks "" = [""]
      /\ length (computeChunks "")
         <> ceilDiv (length (ws_words "")) chunkSize).
Proof.
  repeat split; try reflexivity; vm_compute; discriminate.
Qed.

(** Claim C1, amended: the words of [chunkAndSpeak] are the pieces
    between single space characters.  For every string [s] with [w >= 1]
    such pieces (empty pieces count), the chunk sequence has exactly
    [ceil(w / 25)] chunks; every chunk but the last is made of exactly 25
    pieces and every chunk of between 1 and 25; and the pieces of the
    chunks, one chunk after the other, are exactly the pieces of [s]: none
    omitted, none duplicated, none out of order. *)
Theorem chunks_cover_pieces (s : string) :
  let words := JS.split space s in
  let chunks := computeChunks s in
  1 <= length words
  /\ length chunks = ceilDiv (length words) chunkSize
  /\ Forall (fun chunk => length (JS.split space chunk) = chunkSize)
       (removelast chunks)
  /\ Forall (fun chunk => 1 <= length (JS.split space chunk) <= chunkSize)
       chunks
  /\ concat (map (JS.split space) chunks) = words.
Proof.
  intros words chunks. subst chunks.
  rewrite computeChunks_windows. fold words.
  pose proof (split_from_free space "" s I) as Hfree.
  fold (JS.split space s) in Hfree. fold words in Hfree.
  pose proof (windows_each (free_of space) (length words) words Hfree) as Heach.
  pose proof (split_join_windows _ Heach) as Hback.
  repeat split.
  - pose proof (split_from_nonempty space "" s) as Hne.
    fold (JS.split space s) in Hne. fold words in Hne.
    destruct words; [congruence | simpl; lia].
  - rewrite length_map. now apply windows_length.
  - rewrite removelast_map.
    pose proof (windows_full (length words) words) as Hfull.
    assert (Hsub : Forall (fun g => g <> [] /\ length g <= chunkSize
                                    /\ Forall (free_of space) g)
                     (removelast (windows (length words) words))).
    { apply Forall_forall. intros g Hg.
      eapply Forall_forall in Heach; [exact Heach|].
      clear -Hg. induction (windows (length words) words) as [|a l IH];
        [contradiction|].
      destruct l as [|b l]; [contradiction|].
      destruct Hg as [<-|Hg]; [now left | right; now apply IH]. }
    apply Forall_forall. intros chunk Hin.
    apply in_map_iff in Hin. destruct Hin as [g [<- Hg]].
    eapply Forall_forall in Hfull; [|exact Hg].
    eapply Forall_forall in Hsub; [|exact Hg].
    destruct Hsub as [Hne [_ Hfr]].
    now rewrite (split_join_space g Hne Hfr).
  - apply Forall_forall. intros chunk Hin.
    apply in_map_iff in Hin. destruct Hin as [g [<- Hg]].
    eapply Forall_forall in Heach; [|exact Hg].
    destruct Heach as [Hne [Hle Hfr]].
    rewrite (split_join_space g Hne Hfr).
    destruct g; [congruence | simpl in *; lia].
  - rewrite Hback. now apply windows_concat.
Qed.

(** Claim C10: for every string [s], the empty string and strings with
    repeated, leading or trailing spaces included, joining the chunk
    sequence of [chunkAndSpeak(s)] with single spaces gives back [s]
    exactly. *)
Theorem join_chunks_reconstructs (s : string) :
  JS.join " " (computeChunks s) = s.
Proof.
  rewrite computeChunks_windows.
  pose proof (windows_each (fun _ => True) (length (JS.split space s))
                (JS.split space s)) as Heach.
  rewrite join_concat.
  - rewrite windows_concat by lia.
    apply (join_split_from space "" s).
  - eapply Forall_impl; [|apply Heach].
    + intros g Hg. apply Hg.
    + apply Forall_forall. intros; exact I.
Qed.

(* ===================================================================== *)
(** ** The transcript across a recognition session *)
(* ===================================================================== *)

Section Transcript.

Local Open Scope string_scope.

Lemma concatAll_app (a b : list string) :
  concatAll (a ++ b)%list = concatAll a ++ concatAll b.
Proof.
  induction a as [|x a IH]; [reflexivity|].
  cbn [app concatAll fold_right] in *. unfold concatAll in IH.
  now rewrite IH, append_assoc.
Qed.

Lemma eachWithSpace_app (a b : list string) :
  eachWithSpace (a ++ b)%list = eachWithSpace a ++ eachWithSpace b.
Proof. unfold eachWithSpace. now rewrite map_app, concatAll_app. Qed.

(** The two accumulators of the loop of [onresult]. *)
Lemma onresult_loop_spec (rest : list SpeechRecognitionResult) :
  forall interimTranscript finalTranscript,
    onresult_loop rest interimTranscript finalTranscript
    = (interimTranscript
         ++ concatAll (map fragmentText
                         (filter (fun r => negb (isFinal r)) rest)),
       finalTranscript
         ++ eachWithSpace (map fragmentText (filter isFinal rest))).
Proof.
  induction rest as [|r rest IH]; intros it ft; cbn [onresult_loop].
  - cbn. now rewrite !append_nil_r.
  - cbn [filter]. destruct (isFinal r); cbn [negb map]; rewrite IH.
    + unfold eachWithSpace at 2. cbn [map concatAll fold_right].
      fold (concatAll (map (fun f => f ++ " ")
              (map fragmentText (filter isFinal rest)))).
      fold (eachWithSpace (map fragmentText (filter isFinal rest))).
      unfold fragmentText at 3. now rewrite !append_assoc.
    + cbn [concatAll fold_right].
      fold (concatAll (map fragmentText
              (filter (fun r0 => negb (isFinal r0)) rest))).
      unfold fragmentText at 2. now rewrite append_assoc.
Qed.

(** One update: the final fragments are appended, each with its space,
    and the interim text is replaced. *)
Lemma onresult_spec (update : SpeechRecognitionEvent) (u : Widget) :
  text (onresult update u)
  = text u ++ eachWithSpace (finalFragments [update])
  /\ interimResult (onresult update u)
     = concatAll (interimFragments update)
  /\ isListening (onresult update u) = isListening u.
Proof.
  unfold onresult, finalFragments, interimFragments. cbn [flat_map].
  rewrite app_nil_r, onresult_loop_spec. fold (fragments update).
  cbn [append].
  destruct (JS.truthy (eachWithSpace
              (map fragmentText (filter isFinal (fragments update)))))
    eqn:E; cbn.
  - auto.
  - apply truthy_false in E. rewrite E, append_nil_r. auto.
Qed.

(** The effect touches neither the transcript nor the listening flag. *)
Lemma generationEffect_ui (w : World) :
  text (ui (generationEffect w)) = text (ui w)
  /\ interimResult (ui (generationEffect w)) = interimResult (ui w)
  /\ isListening (ui (generationEffect w)) = isListening (ui w)
  /\ response (ui (generationEffect w)) = response (ui w).
Proof.
  unfold generationEffect, generateAIResponse_call.
  destruct (negb (isListening (ui w)) && JS.truthy (JS.trim (text (ui w))));
    [|auto].
  destruct (JS.truthy (JS.trim (text (ui w)))); auto.
Qed.

Lemma react_ui (ev : Event) (w : World) :
  text (ui (react ev w)) = text (ui (handle ev w))
  /\ interimResult (ui (react ev w)) = interimResult (ui (handle ev w))
  /\ isListening (ui (react ev w)) = isListening (ui (handle ev w)).
Proof.
  unfold react. destruct (depsChanged (ui w) (ui (handle ev w))); [|auto].
  pose proof (generationEffect_ui (handle ev w)). intuition.
Qed.

Lemma startListening_ui (w : World) :
  text (ui (startListening w)) = ""
  /\ interimResult (ui (startListening w)) = "".
Proof.
  unfold startListening, initializeSpeechRecognition. cbn.
  destruct (refSet (recognition w)) eqn:Href; cbn.
  - rewrite Href. auto.
  - destruct (supported (recognition w)); cbn; [auto|].
    rewrite Href. auto.
Qed.

Lemma run_app (evs evs' : list Event) (w : World) :
  run (evs ++ evs')%list w = run evs' (run evs w).
Proof. apply fold_left_app. Qed.

Lemma finalFragments_cons (update : SpeechRecognitionEvent)
    (updates : list SpeechRecognitionEvent) :
  finalFragments (update :: updates)
  = (finalFragments [update] ++ finalFragments updates)%list.
Proof.
  unfold finalFragments. cbn [flat_map]. now rewrite app_nil_r.
Qed.

(** A run of updates appends the final fragments of all of them. *)
Lemma run_updates_text (updates : list SpeechRecognitionEvent) :
  forall w,
    text (ui (run (map RecognitionResult updates) w))
    = text (ui w) ++ eachWithSpace (finalFragments updates).
Proof.
  induction updates as [|update updates IH]; intros w.
  - cbn. now rewrite append_nil_r.
  - cbn [map run fold_left]. fold (run (map RecognitionResult updates)).
    rewrite IH.
    destruct (react_ui (RecognitionResult update) w) as [-> _].
    cbn [handle upd_ui ui].
    destruct (onresult_spec update (ui w)) as [-> _].
    rewrite (finalFragments_cons update updates).
    now rewrite eachWithSpace_app, append_assoc.
Qed.

(** After a run of updates the interim text is that of the last one. *)
Lemma run_updates_interim (updates : list SpeechRecognitionEvent)
    (update : SpeechRecognitionEvent) (w : World) :
  interimResult
    (ui (run (map RecognitionResult (updates ++ [update])%list) w))
  = concatAll (interimFragments update).
Proof.
  rewrite map_app, run_app. cbn [map run fold_left].
  destruct (react_ui (RecognitionResult update)
              (run (map RecognitionResult updates) w)) as [_ [-> _]].
  cbn [handle upd_ui ui]. apply onresult_spec.
Qed.

End Transcript.

(** Claim C3: for every sequence of recognition updates delivered in
    order to a session, the finalized transcript (the [text] cell) after
    the end notification is the concatenation, in delivery order, of
    exactly the fragments marked final, each followed by one space;
    fragments not marked final contribute nothing to it.  More generally,
    a run of updates appends that concatenation to the transcript it
    starts from. *)
Theorem finalized_transcript_of_session
    (updates : list SpeechRecognitionEvent) (w : World) :
  text (ui (run (session updates) w))
  = eachWithSpace (finalFragments updates)
  /\ text (ui (run (map RecognitionResult updates) w))
     = (text (ui w) ++ eachWithSpace (finalFragments updates))%string.
Proof.
  split; [|apply run_updates_text].
  unfold session. cbn [run fold_left].
  fold (run (map RecognitionResult updates ++ [RecognitionEnd])).
  rewrite run_app. cbn [run fold_left].
  destruct (react_ui RecognitionEnd
              (run (map RecognitionResult updates)
                 (react RecognitionStart (react StartListening w))))
    as [-> _].
  cbn [handle upd_ui ui onend setIsListening text].
  rewrite run_updates_text.
  destruct (react_ui RecognitionStart (react StartListening w)) as [-> _].
  cbn [handle upd_ui ui onstart setIsListening text].
  destruct (react_ui StartListening w) as [-> _].
  cbn [handle].
  destruct (startListening_ui w) as [-> _]. reflexivity.
Qed.

(** Claim C4, as stated, fails: a session whose only update carries a
    fragment not marked final ends with that fragment as interim text. *)
Lemma interim_text_survives_session_end :
  interimResult
    (ui (run (session [update1 false "hello wor"])
           (mounted true ["Alice"])))
  = "hello wor"
  /\ interimResult
       (ui (run (session [update1 false "hello wor"])
              (mounted true ["Alice"])))
     <> "".
Proof. split; [reflexivity | vm_compute; discriminate]. Qed.

(** Claim C4, amended: the end notification leaves the interim text as
    it is.  After a session ends, the interim text is the concatenation
    of the fragments not marked final of the last update delivered in
    that session, and the empty string when the session delivered no
    update. *)
Theorem interim_text_after_session (w : World) :
  (forall u, interimResult (onend u) = interimResult u)
  /\ interimResult (ui (run (session []) w)) = ""
  /\ (forall updates update,
        interimResult (ui (run (session (updates ++ [update])) w))
        = concatAll (interimFragments update)).
Proof.
  split; [reflexivity|]. split.
  - unfold session. cbn [map app run fold_left].
    destruct (react_ui RecognitionEnd
                (react RecognitionStart (react StartListening w)))
      as [_ [-> _]].
    cbn [handle upd_ui ui onend setIsListening interimResult].
    destruct (react_ui RecognitionStart (react StartListening w))
      as [_ [-> _]].
    cbn [handle upd_ui ui onstart setIsListening interimResult].
    destruct (react_ui StartListening w) as [_ [-> _]].
    cbn [handle]. apply startListening_ui.
  - intros updates update. unfold session. cbn [run fold_left].
    fold (run (map RecognitionResult (updates ++ [update])
                 ++ [RecognitionEnd])).
    rewrite run_app. cbn [run fold_left].
    destruct (react_ui RecognitionEnd
                (run (map RecognitionResult (updates ++ [update]))
                   (react RecognitionStart (react StartListening w))))
      as [_ [-> _]].
    cbn [handle upd_ui ui onend setIsListening interimResult].
    apply run_updates_interim.
Qed.

(* ===================================================================== *)
(** ** Playback *)
(* ===================================================================== *)

Ltac break_match :=
  match goal with
  | |- context [match ?x with _ => _ end] => destruct x eqn:?
  | |- context [if ?b then _ else _] => destruct b eqn:?
  end.

Ltac break_inner :=
  match goal with
  | |- context [match ?x with _ => _ end] =>
      lazymatch x with
      | context [match _ with _ => _ end] => fail
      | _ => destruct x eqn:?
      end
  end.

Ltac unfold_handlers :=
  unfold startListening, initializeSpeechRecognition, stopSpeaking,
    chunkAndSpeak, speakChunk, speak, cancel, speaking, getVoices,
    set_onvoiceschanged, utteranceBegins, utteranceEnds, timerFires,
    voicesChanged, generateAIResponse_settled, generateContent_settled,
    generateAIResponse_call, generateContent_call, generationEffect.

Section Playback.

Lemma computeChunks_empty : computeChunks "" = [""].
Proof. reflexivity. Qed.



(** When the capability is not speaking, [stopSpeaking] does nothing. *)
Lemma stop_when_not_speaking (w : World) :
  speaking w = false -> react StopSpeaking w = w.
Proof.
  intros Hsp. unfold react. cbn [handle]. unfold stopSpeaking.
  rewrite Hsp. unfold depsChanged.
  now rewrite String.eqb_refl, Bool.eqb_reflx.
Qed.

End Playback.

(** Claim C2, as stated, fails: with a voice available,
    [chunkAndSpeak("")] computes one chunk, submits one utterance and
    turns [isSpeaking] from false to true. *)
Lemma empty_string_is_submitted :
  computeChunks "" = [""]
  /\ map utt_text (submitted (chunkAndSpeak "" (mounted true ["Alice"])))
     = [""]
  /\ isSpeaking (ui (mounted true ["Alice"])) = false
  /\ isSpeaking (ui (chunkAndSpeak "" (mounted true ["Alice"]))) = true.
Proof. repeat split. Qed.

(** Claim C2, amended: [chunkAndSpeak("")] computes exactly one chunk,
    the empty string.  When the voice list is not empty it submits
    exactly one utterance, with the empty text, and sets [isSpeaking] to
    true.  When the voice list is empty it submits nothing and leaves
    [isSpeaking] as it was, and stores a voices-changed handler for that
    one chunk. *)
Theorem chunkAndSpeak_empty_string (w : World) :
  computeChunks "" = [""]
  /\ match getVoices w with
     | [] =>
         submitted (chunkAndSpeak "" w) = submitted w
         /\ isSpeaking (ui (chunkAndSpeak "" w)) = isSpeaking (ui w)
         /\ onvoiceschanged (synth (chunkAndSpeak "" w)) = Some [""]
     | voice :: others =>
         submitted (chunkAndSpeak "" w)
         = submitted w
             ++ [{| utt_text := "";
                    utt_voice := Some voice;
                    utt_rate := 11;
                    utt_onend := {| sc_chunks := [""]; sc_index := 1;
                                    sc_voices := voice :: others |} |}]
         /\ isSpeaking (ui (chunkAndSpeak "" w)) = true
     end.
Proof.
  split; [reflexivity|].
  unfold chunkAndSpeak. rewrite computeChunks_empty. cbv zeta.
  destruct (getVoices w) as [|voice others]; cbn; auto.
Qed.

(** Claim C5, evaluated where the code departs from it.  A widget
    mounted before the voices are loaded plays a two-chunk reply through
    the voices-changed handler and is stopped while chunk 0 is being
    spoken: [isSpeaking] becomes false and the capability is emptied.
    The handler stays stored, so when the voice list changes again chunk
    0 is submitted anew, [isSpeaking] is true again, and chunk 1 is
    started after it. *)
Theorem stop_then_voices_change_replays :
  let playing := run (removelast untilStop) (mounted true []) in
  let stopped := run untilStop (mounted true []) in
  let later := run afterStop stopped in
  computeChunks twoChunkReply = [JS.join " " (repeat "w" 25); "w"]
  /\ option_map utt_text (current (synth playing))
     = Some (JS.join " " (repeat "w" 25))
  /\ isSpeaking (ui playing) = true
  /\ stopped = react StopSpeaking playing
  /\ isSpeaking (ui stopped) = false
  /\ queue (synth stopped) = [] /\ current (synth stopped) = None
  /\ map utt_text (submitted stopped) = [JS.join " " (repeat "w" 25)]
  /\ map utt_text (submitted later)
     = [JS.join " " (repeat "w" 25); JS.join " " (repeat "w" 25); "w"]
  /\ option_map utt_text (current (synth later)) = Some "w"
  /\ isSpeaking (ui later) = true.
Proof. vm_compute. repeat split. Qed.

(* ===================================================================== *)
(** ** Generation *)
(* ===================================================================== *)

Section Generation.

(** No handler passes anything to the remote capability: only the
    effect does. *)
Lemma handle_requests (ev : Event) (w : World) :
  requests (handle ev w) = requests w.
Proof.
  destruct ev as [ | | | | | | | |o| | | | ]; cbn [handle];
    try destruct (pendingCalls w);
    try destruct o as [generatedText|[message|shown]];
    repeat unfold_handlers; cbn -[computeChunks];
    repeat break_match; reflexivity.
Qed.

(** What the effect sends, and when. *)
Lemma generationEffect_requests (w : World) :
  requests (generationEffect w)
  = if negb (isListening (ui w)) && JS.truthy (JS.trim (text (ui w)))
    then requests w ++ [(text (ui w) ++ brevitySuffix)%string]
    else requests w.
Proof.
  unfold generationEffect, generateAIResponse_call.
  destruct (isListening (ui w)); cbn [negb andb]; [reflexivity|].
  destruct (JS.truthy (JS.trim (text (ui w)))); reflexivity.
Qed.

End Generation.

(** Claim C6: when a generation attempt fails, whatever is thrown, its
    handling leaves the finalized transcript ([text]) unchanged, neither
    sets nor modifies the reply text ([response]), starts no playback,
    and emits exactly one user-visible failure notification.  This holds
    of the handling alone, of the whole attempt from the call on, and of
    the widget reacting to the rejection of a pending call. *)
Theorem failed_generation_is_contained (thrown : JsValue)
    (prompt : string) (w : World) :
  let failure := "Failed to generate response. Please try again." in
  let handled := generateAIResponse_settled (Rejected thrown) w in
  let attempt :=
    generateAIResponse_settled (Rejected thrown)
      (generateAIResponse_call prompt w) in
  (text (ui handled) = text (ui w)
   /\ response (ui handled) = response (ui w)
   /\ submitted handled = submitted w
   /\ toasts handled = toasts w ++ [failure])
  /\ (text (ui attempt) = text (ui w)
      /\ response (ui attempt) = response (ui w)
      /\ submitted attempt = submitted w
      /\ toasts attempt = toasts w ++ [failure])
  /\ match pendingCalls w with
     | 0 => react (GenerationSettled (Rejected thrown)) w = w
     | S _ =>
         let w' := react (GenerationSettled (Rejected thrown)) w in
         text (ui w') = text (ui w)
         /\ response (ui w') = response (ui w)
         /\ submitted w' = submitted w
         /\ toasts w' = toasts w ++ [failure]
     end.
Proof.
  cbv zeta. split; [|split].
  - destruct thrown; cbn; auto.
  - unfold generateAIResponse_call.
    destruct (JS.truthy (JS.trim prompt)); destruct thrown; cbn; auto.
  - unfold react. cbn [handle].
    destruct (pendingCalls w) as [|n].
    + unfold depsChanged.
      now rewrite String.eqb_refl, Bool.eqb_reflx.
    + destruct thrown; cbn; unfold depsChanged; cbn;
        rewrite String.eqb_refl, Bool.eqb_reflx; cbn; auto.
Qed.

(** Claim C7: whatever happens to the widget, a generation call is
    issued only in a state where [isListening] is false and the finalized
    transcript is not empty after trimming; the call then carries that
    transcript.  No call is issued while the widget is listening. *)
Theorem generation_only_when_not_listening (ev : Event) (w : World) :
  requests (react ev w) <> requests w ->
  isListening (ui (handle ev w)) = false
  /\ isListening (ui (react ev w)) = false
  /\ JS.trim (text (ui (handle ev w))) <> ""
  /\ requests (react ev w)
     = requests w ++ [(text (ui (handle ev w)) ++ brevitySuffix)%string].
Proof.
  intros Hsent.
  destruct (react_ui ev w) as (_ & _ & Hlisten). rewrite Hlisten.
  unfold react in *.
  destruct (depsChanged (ui w) (ui (handle ev w))).
  - rewrite generationEffect_requests, handle_requests in *.
    destruct (isListening (ui (handle ev w))); cbn [negb andb] in *;
      [congruence|].
    destruct (JS.trim (text (ui (handle ev w)))) eqn:Etrim;
      cbn [JS.truthy] in *; [congruence|].
    repeat split; congruence.
  - rewrite handle_requests in Hsent. congruence.
Qed.

(** The end of a session in which "hello world" was finalized issues the
    call, in a state that is not listening. *)
Lemma generation_only_when_not_listening_witness :
  requests (react RecognitionEnd heardHello) <> requests heardHello
  /\ (isListening (ui (handle RecognitionEnd heardHello)) = false
      /\ isListening (ui (react RecognitionEnd heardHello)) = false
      /\ JS.trim (text (ui (handle RecognitionEnd heardHello))) <> ""
      /\ requests (react RecognitionEnd heardHello)
         = requests heardHello
             ++ [(text (ui (handle RecognitionEnd heardHello))
                  ++ brevitySuffix)%string]).
Proof.
  split.
  - vm_compute. discriminate.
  - apply (generation_only_when_not_listening RecognitionEnd heardHello).
    vm_compute. discriminate.
Defined.

(** Claim C8: for every prompt passed to [generateContent], the string
    sent to the text-generation capability is the prompt followed by one
    fixed brevity instruction, the same for all calls, with nothing else
    added or removed. *)
Theorem prompt_is_sent_with_fixed_suffix (prompt : string) (w : World) :
  requests (generateContent_call prompt w)
  = requests w ++ [(prompt ++ brevitySuffix)%string]
  /\ brevitySuffix
     = "you can say in it 2 to 3 sentences only yu don thave to generate a huge response for this."
  /\ String.length (prompt ++ brevitySuffix)
     = String.length prompt + 90.
Proof.
  repeat split.
  induction prompt as [|ch prompt IH]; [reflexivity|].
  cbn [append String.length]. now rewrite IH.
Qed.

(** Claim C9: without a credential (the variable undefined or empty) the
    top level of the generation module throws, so initialization fails;
    with a credential it completes.  [generateContent] makes no check of
    its own: it returns the completion whenever the remote call gives
    one, and otherwise throws the error of the remote call, so it never
    fails for a missing credential. *)
Theorem credential_checked_at_initialization_only :
  moduleInit None = inl (JsError "Missing Gemini API Key")
  /\ moduleInit (Some "") = inl (JsError "Missing Gemini API Key")
  /\ (forall ch rest,
        moduleInit (Some (String ch rest))
        = inr {| apiKey := String ch rest;
                 modelName := "gemini-1.5-flash" |})
  /\ (forall generatedText w,
        snd (generateContent_settled (Fulfilled generatedText) w)
        = inl generatedText)
  /\ (forall message w,
        snd (generateContent_settled (Rejected (JsError message)) w)
        = inr message)
  /\ (forall shown w,
        snd (generateContent_settled (Rejected (JsOther shown)) w)
        = inr "An unknown error occurred").
Proof. repeat split. Qed.

(* ===================================================================== *)
(** ** Further properties of the chunk sequence *)
(* ===================================================================== *)

Lemma computeChunks_nonempty (s : string) : computeChunks s <> [].
Proof.
  rewrite computeChunks_windows.
  pose proof (split_from_nonempty space "" s) as Hne.
  fold (JS.split space s) in Hne.
  destruct (JS.split space s) as [|x l]; [congruence | discriminate].
Qed.

(** Property X1: a text of at most 25 pieces (no more than 24 space
    characters) is one chunk, the text itself, unchanged. *)
Theorem short_text_is_one_chunk (s : string) :
  length (JS.split space s) <= chunkSize ->
  computeChunks s = [s].
Proof.
  intros Hshort. rewrite computeChunks_windows.
  pose proof (split_from_nonempty space "" s) as Hne.
  fold (JS.split space s) in Hne.
  pose proof (join_split_from space "" s) as Hjoin.
  fold (JS.split space s) in Hjoin.
  destruct (JS.split space s) as [|x l] eqn:E; [congruence|].
  cbn [length windows map].
  rewrite firstn_all2 by assumption.
  rewrite skipn_all2 by assumption.
  replace (windows (length l) []) with (@nil (list string))
    by (destruct (length l); reflexivity).
  cbn [map]. f_equal. exact Hjoin.
Qed.

Lemma short_text_is_one_chunk_witness :
  length (JS.split space "Hi there! How can I help?") <= chunkSize
  /\ computeChunks "Hi there! How can I help?"
     = ["Hi there! How can I help?"].
Proof.
  split.
  - vm_compute. repeat constructor.
  - apply short_text_is_one_chunk. vm_compute. repeat constructor.
Defined.

(* ===================================================================== *)
(** ** Further properties of recognition and of the generation effect *)
(* ===================================================================== *)

Section Triggers.

(** What one reaction sends to the remote capability. *)
Lemma react_requests (ev : Event) (w : World) :
  requests (react ev w)
  = if depsChanged (ui w) (ui (handle ev w))
       && negb (isListening (ui (handle ev w)))
       && JS.truthy (JS.trim (text (ui (handle ev w))))
    then requests w ++ [(text (ui (handle ev w)) ++ brevitySuffix)%string]
    else requests w.
Proof.
  unfold react.
  destruct (depsChanged (ui w) (ui (handle ev w))); cbn [andb].
  - now rewrite generationEffect_requests, handle_requests.
  - apply handle_requests.
Qed.

Lemma react_listening_requests (ev : Event) (w : World) :
  isListening (ui (handle ev w)) = true ->
  requests (react ev w) = requests w.
Proof.
  intros H. rewrite react_requests, H. cbn. now rewrite andb_false_r.
Qed.

(** While the widget listens, updates send nothing and leave it
    listening. *)
Lemma run_updates_listening (updates : list SpeechRecognitionEvent) :
  forall w, isListening (ui w) = true ->
    requests (run (map RecognitionResult updates) w) = requests w
    /\ isListening (ui (run (map RecognitionResult updates) w)) = true.
Proof.
  induction updates as [|update updates IH]; intros w Hl; [auto|].
  change (run (map RecognitionResult (update :: updates)) w)
    with (run (map RecognitionResult updates)
            (react (RecognitionResult update) w)).
  assert (Hh : isListening (ui (handle (RecognitionResult update) w))
               = true).
  { cbn [handle upd_ui ui].
    destruct (onresult_spec update (ui w)) as (_ & _ & ->). exact Hl. }
  destruct (react_ui (RecognitionResult update) w) as (_ & _ & Hr).
  destruct (IH (react (RecognitionResult update) w)) as [E1 E2];
    [congruence|].
  rewrite E1, E2. split; [|reflexivity].
  now apply react_listening_requests.
Qed.

Lemma depsChanged_listening (before after : Widget) :
  isListening before = true -> isListening after = false ->
  depsChanged before after = true.
Proof.
  intros Hb Ha. unfold depsChanged. rewrite Hb, Ha. cbn.
  apply orb_true_r.
Qed.

Lemma depsChanged_same (before after : Widget) :
  text before = text after -> isListening before = isListening after ->
  depsChanged before after = false.
Proof.
  intros Ht Hl. unfold depsChanged.
  now rewrite Ht, Hl, String.eqb_refl, Bool.eqb_reflx.
Qed.

(** One step that only clears the listening flag of a listening widget. *)
Lemma listening_stop_step (ev : Event) (w : World) :
  isListening (ui w) = true ->
  handle ev w = upd_ui (setIsListening false) w ->
  isListening (ui (react ev w)) = false
  /\ requests (react ev w)
     = requests w
         ++ (if JS.truthy (JS.trim (text (ui w)))
             then [(text (ui w) ++ brevitySuffix)%string]
             else []).
Proof.
  intros Hl Hev.
  destruct (react_ui ev w) as (_ & _ & ->). rewrite Hev.
  split; [reflexivity|].
  rewrite react_requests, Hev.
  cbn [upd_ui ui setIsListening isListening text negb andb].
  rewrite depsChanged_listening by (assumption || reflexivity).
  cbn [andb].
  destruct (JS.truthy (JS.trim (text (ui w))));
    [reflexivity | now rewrite app_nil_r].
Qed.

End Triggers.

(** Property X2: [startListening] always clears the transcript and the
    interim text and sends nothing to the remote capability.  When a
    recognition object exists or can be created it calls [start()] once
    and shows nothing; otherwise it calls nothing, logs that recognition
    is unsupported and shows exactly one failure notification. *)
Theorem startListening_starts_or_reports (w : World) :
  let w' := react StartListening w in
  text (ui w') = "" /\ interimResult (ui w') = ""
  /\ requests w' = requests w
  /\ if refSet (recognition w) || supported (recognition w)
     then startCalls (recognition w') = S (startCalls (recognition w))
          /\ refSet (recognition w') = true
          /\ toasts w' = toasts w
          /\ consoleErrors w' = consoleErrors w
     else startCalls (recognition w') = startCalls (recognition w)
          /\ toasts w'
             = toasts w
                 ++ ["Failed to start speech recognition. Please try again."]
          /\ consoleErrors w'
             = consoleErrors w
                 ++ ["Speech recognition not supported in this browser"].
Proof.
  cbv zeta.
  destruct (react_ui StartListening w) as (Ht & Hi & _).
  destruct (startListening_ui w) as (Ht' & Hi').
  cbn [handle] in Ht, Hi. rewrite Ht, Hi, Ht', Hi'.
  split; [reflexivity|]. split; [reflexivity|]. split.
  - rewrite react_requests. cbn [handle]. rewrite Ht'. cbn.
    now rewrite andb_false_r.
  - unfold react. cbn [handle].
    assert (Hsame : forall x,
               generationEffect (startListening x) = startListening x).
    { intros x. unfold generationEffect.
      destruct (startListening_ui x) as (-> & _). cbn.
      now rewrite andb_false_r. }
    rewrite Hsame.
    replace (if depsChanged (ui w) (ui (startListening w))
             then startListening w else startListening w)
      with (startListening w) by (now destruct (depsChanged _ _)).
    unfold startListening, initializeSpeechRecognition. cbn.
    destruct (refSet (recognition w)) eqn:Href; cbn.
    + rewrite Href. cbn. auto.
    + destruct (supported (recognition w)); cbn; [auto|].
      rewrite Href. cbn. auto.
Qed.

(** Property X3: when listening stops, by the end notification or by an
    error notification alike, the widget stops listening and, if the
    finalized transcript is not blank, sends exactly one request made of
    the transcript and the suffix; if the transcript is blank it sends
    nothing.  The interim text is not part of the request. *)
Theorem listening_stop_triggers_generation (w : World) :
  isListening (ui w) = true ->
  let sent :=
    if JS.truthy (JS.trim (text (ui w)))
    then [(text (ui w) ++ brevitySuffix)%string] else [] in
  (isListening (ui (react RecognitionEnd w)) = false
   /\ requests (react RecognitionEnd w) = requests w ++ sent)
  /\ (isListening (ui (react RecognitionError w)) = false
      /\ requests (react RecognitionError w) = requests w ++ sent).
Proof.
  intros Hl. cbv zeta.
  split; apply listening_stop_step; (assumption || reflexivity).
Qed.

Lemma listening_stop_triggers_generation_witness :
  isListening (ui heardHello) = true
  /\ ((isListening (ui (react RecognitionEnd heardHello)) = false
       /\ requests (react RecognitionEnd heardHello)
          = requests heardHello
              ++ (if JS.truthy (JS.trim (text (ui heardHello)))
                  then [(text (ui heardHello) ++ brevitySuffix)%string]
                  else []))
      /\ (isListening (ui (react RecognitionError heardHello)) = false
          /\ requests (react RecognitionError heardHello)
             = requests heardHello
                 ++ (if JS.truthy (JS.trim (text (ui heardHello)))
                     then [(text (ui heardHello) ++ brevitySuffix)%string]
                     else []))).
Proof.
  split; [reflexivity|].
  apply (listening_stop_triggers_generation heardHello). reflexivity.
Defined.

(** Property X4: a whole recognition session sends at most one request,
    when it ends: the finalized transcript followed by the suffix if the
    transcript is not empty after trimming, and nothing otherwise.
    Nothing is sent while the session runs. *)
Theorem session_sends_at_most_one_request
    (updates : list SpeechRecognitionEvent) (w : World) :
  let heard := eachWithSpace (finalFragments updates) in
  requests (run (StartListening :: RecognitionStart
                   :: map RecognitionResult updates) w)
  = requests w
  /\ requests (run (session updates) w)
     = requests w
         ++ (if JS.truthy (JS.trim heard)
             then [(heard ++ brevitySuffix)%string] else [])
  /\ isListening (ui (run (session updates) w)) = false.
Proof.
  cbv zeta.
  set (w1 := react StartListening w).
  set (w2 := react RecognitionStart w1).
  assert (R1 : requests w1 = requests w).
  { unfold w1. rewrite react_requests. cbn [handle].
    destruct (startListening_ui w) as (-> & _). cbn.
    now rewrite andb_false_r. }
  assert (T1 : text (ui w1) = "").
  { unfold w1. destruct (react_ui StartListening w) as (-> & _).
    cbn [handle]. apply startListening_ui. }
  assert (L2 : isListening (ui w2) = true).
  { unfold w2. now destruct (react_ui RecognitionStart w1) as (_ & _ & ->). }
  assert (R2 : requests w2 = requests w).
  { unfold w2. rewrite react_listening_requests by reflexivity. exact R1. }
  assert (T2 : text (ui w2) = "").
  { unfold w2. destruct (react_ui RecognitionStart w1) as (-> & _).
    exact T1. }
  destruct (run_updates_listening updates w2 L2) as (R3 & L3).
  pose proof (run_updates_text updates w2) as T3. rewrite T2 in T3.
  cbn [append] in T3.
  change (run (StartListening :: RecognitionStart
                 :: map RecognitionResult updates) w)
    with (run (map RecognitionResult updates) w2).
  split; [congruence|].
  unfold session.
  change (run (StartListening :: RecognitionStart
                 :: map RecognitionResult updates ++ [RecognitionEnd]) w)
    with (run (map RecognitionResult updates ++ [RecognitionEnd]) w2).
  rewrite run_app. cbn [run fold_left].
  destruct (listening_stop_step RecognitionEnd _ L3 eq_refl) as (Hl & Hr).
  rewrite Hl, Hr, T3, R3, R2. auto.
Qed.

(** Property X5: while the widget is not listening, every edit of the
    text area that changes the text to something not blank sends a
    request of its own, made of the new text and the suffix, and adds
    one pending call: nothing debounces edits or waits for the call
    before. *)
Theorem edit_triggers_generation (value : string) (w : World) :
  isListening (ui w) = false ->
  value <> text (ui w) ->
  JS.truthy (JS.trim value) = true ->
  text (ui (react (EditText value) w)) = value
  /\ requests (react (EditText value) w)
     = requests w ++ [(value ++ brevitySuffix)%string]
  /\ pendingCalls (react (EditText value) w) = S (pendingCalls w)
  /\ isResponding (ui (react (EditText value) w)) = true.
Proof.
  intros Hl Hne Hblank.
  assert (Hdeps : depsChanged (ui w)
                    (ui (handle (EditText value) w)) = true).
  { unfold depsChanged. cbn.
    destruct (String.eqb_spec (text (ui w)) value); [congruence|].
    reflexivity. }
  unfold react. rewrite Hdeps. cbn [handle].
  unfold generationEffect, generateAIResponse_call.
  cbn [upd_ui ui setText text isListening].
  rewrite Hl, Hblank. cbn -[JS.trim]. auto.
Qed.

Lemma edit_triggers_generation_witness :
  isListening (ui (mounted true ["Alice"])) = false
  /\ "hello" <> text (ui (mounted true ["Alice"]))
  /\ JS.truthy (JS.trim "hello") = true
  /\ (text (ui (react (EditText "hello") (mounted true ["Alice"])))
      = "hello"
      /\ requests (react (EditText "hello") (mounted true ["Alice"]))
         = requests (mounted true ["Alice"])
             ++ [("hello" ++ brevitySuffix)%string]
      /\ pendingCalls (react (EditText "hello") (mounted true ["Alice"]))
         = S (pendingCalls (mounted true ["Alice"]))
      /\ isResponding
           (ui (react (EditText "hello") (mounted true ["Alice"])))
         = true).
Proof.
  split; [reflexivity|]. split; [vm_compute; discriminate|].
  split; [reflexivity|].
  apply (edit_triggers_generation "hello" (mounted true ["Alice"]));
    [reflexivity | vm_compute; discriminate | reflexivity].
Defined.

(** Property X6: when a pending call is fulfilled, the reply becomes the
    response, the responding and loading indicators are cleared, no
    notification is shown, the transcript is kept and no new request is
    sent.  Playback of the reply starts at once when voices are loaded
    (its first chunk is submitted, with the first voice, and
    [isSpeaking] is set) and is otherwise left to the voices-changed
    handler. *)
Theorem fulfilled_generation_sets_reply_and_speaks
    (reply : string) (n : nat) (w : World) :
  pendingCalls w = S n ->
  let w' := react (GenerationSettled (Fulfilled reply)) w in
  response (ui w') = reply
  /\ isResponding (ui w') = false
  /\ isLoading (hook w') = false
  /\ hookResponse (hook w') = Some reply
  /\ text (ui w') = text (ui w)
  /\ toasts w' = toasts w
  /\ requests w' = requests w
  /\ pendingCalls w' = n
  /\ match getVoices w with
     | [] => submitted w' = submitted w
             /\ isSpeaking (ui w') = isSpeaking (ui w)
             /\ onvoiceschanged (synth w') = Some (computeChunks reply)
     | voice :: others =>
         submitted w'
         = submitted w
             ++ [utteranceOf {| sc_chunks := computeChunks reply;
                                sc_index := 0;
                                sc_voices := voice :: others |}]
         /\ isSpeaking (ui w') = true
     end.
Proof.
  intros Hp. cbv zeta.
  pose proof (computeChunks_nonempty reply) as Hne.
  assert (Hd : depsChanged (ui w)
                 (ui (handle (GenerationSettled (Fulfilled reply)) w))
               = false).
  { apply depsChanged_same; cbn [handle]; rewrite Hp;
      unfold generateAIResponse_settled, generateContent_settled,
        chunkAndSpeak, speakChunk, getVoices;
      cbn -[computeChunks];
      destruct (voices (synth w)); cbn -[computeChunks];
      try destruct (computeChunks reply); reflexivity. }
  unfold react. rewrite Hd. cbn [handle]. rewrite Hp.
  unfold generateAIResponse_settled, generateContent_settled,
    chunkAndSpeak, speakChunk, getVoices.
  cbn -[computeChunks].
  destruct (voices (synth w)) as [|voice others]; cbn -[computeChunks].
  - repeat split.
  - destruct (computeChunks reply) as [|chunk rest]; [congruence|].
    cbn. repeat split.
Qed.

Lemma fulfilled_generation_sets_reply_and_speaks_witness :
  pendingCalls (react RecognitionEnd heardHello) = 1
  /\ response
       (ui (react (GenerationSettled (Fulfilled "Hi there!"))
              (react RecognitionEnd heardHello)))
     = "Hi there!".
Proof.
  split; [reflexivity|].
  apply (fulfilled_generation_sets_reply_and_speaks "Hi there!" 0
           (react RecognitionEnd heardHello)).
  reflexivity.
Defined.

(** Property X7: a call with a blank prompt does nothing at all.  A call
    with any other prompt sets the responding and loading indicators and
    clears the hook's error and response; when it settles, whatever the
    outcome, both indicators are cleared and the pending request is not
    sent again.  A rejection records the message of the error in the
    hook and in the console: the thrown error's own message, or "An
    unknown error occurred" when the thrown value is not an error. *)
Theorem generation_brackets_its_indicators
    (prompt : string) (o : Outcome) (w : World) :
  let called := generateAIResponse_call prompt w in
  let settled := generateAIResponse_settled o called in
  if JS.truthy (JS.trim prompt)
  then isResponding (ui called) = true
       /\ isLoading (hook called) = true
       /\ hookError (hook called) = None
       /\ hookResponse (hook called) = None
       /\ isResponding (ui settled) = false
       /\ isLoading (hook settled) = false
       /\ requests settled = requests called
       /\ match o with
          | Fulfilled _ =>
              hookError (hook settled) = None
              /\ consoleErrors settled = consoleErrors w
          | Rejected (JsError message) =>
              hookError (hook settled) = Some message
              /\ consoleErrors settled = consoleErrors w ++ [message]
          | Rejected (JsOther _) =>
              hookError (hook settled) = Some "An unknown error occurred"
              /\ consoleErrors settled
                 = consoleErrors w ++ ["An unknown error occurred"]
          end
  else called = w.
Proof.
  cbv zeta. unfold generateAIResponse_call.
  destruct (JS.truthy (JS.trim prompt)); [|reflexivity].
  destruct o as [generatedText|[message|shown]];
    unfold generateAIResponse_settled, generateContent_settled,
      generateContent_call, chunkAndSpeak, speakChunk, getVoices;
    cbn -[computeChunks]; try (repeat split; fail).
  destruct (voices (synth w)) as [|voice others]; cbn -[computeChunks];
    [repeat split|].
  destruct (computeChunks generatedText); cbn; repeat split.
Qed.

(* ===================================================================== *)
(** ** Further properties of playback *)
(* ===================================================================== *)

Section Sequencing.

(** The handlers of playback leave the dependencies of the effect alone,
    so the effect does not run after them. *)
Lemma react_playback (ev : Event) (w : World) :
  match ev with
  | StopSpeaking | SpeakAgain | UtteranceBegins | UtteranceEnds
  | TimerFires | VoicesChanged _ => True
  | _ => False
  end ->
  react ev w = handle ev w.
Proof.
  intros Hev. unfold react.
  rewrite depsChanged_same; [reflexivity| |];
    destruct ev; try contradiction; cbn [handle];
    repeat unfold_handlers; cbn -[computeChunks];
    repeat break_match; reflexivity.
Qed.

Lemma speakChunk_in_range (c : SpeakChunkCall) (w : World) :
  sc_index c < length (sc_chunks c) ->
  speakChunk c w = speak (utteranceOf c) w.
Proof.
  intros H. unfold speakChunk.
  destruct (Nat.leb_spec (length (sc_chunks c)) (sc_index c)); [lia|].
  reflexivity.
Qed.

Lemma speakChunk_past_end (c : SpeakChunkCall) (w : World) :
  length (sc_chunks c) <= sc_index c ->
  speakChunk c w = upd_ui (setIsSpeaking false) w.
Proof.
  intros H. unfold speakChunk.
  destruct (Nat.leb_spec (length (sc_chunks c)) (sc_index c)); [|lia].
  reflexivity.
Qed.

(** One utterance played to its end: the next one is queued, or, after
    the last one, the widget stops speaking. *)
Lemma cycle_step (chunks : list string) (vs : list SpeechSynthesisVoice)
    (k : nat) (w : World) :
  queuedAt chunks vs k w ->
  let w' := run playCycle w in
  onvoiceschanged (synth w') = onvoiceschanged (synth w)
  /\ if (S k <? length chunks)%nat
     then queuedAt chunks vs (S k) w'
          /\ submitted w'
             = submitted w
                 ++ [utteranceOf {| sc_chunks := chunks; sc_index := S k;
                                    sc_voices := vs |}]
          /\ isSpeaking (ui w') = isSpeaking (ui w)
     else queue (synth w') = [] /\ current (synth w') = None
          /\ timers w' = []
          /\ submitted w' = submitted w
          /\ isSpeaking (ui w') = false.
Proof.
  intros (Hq & Hc & Ht). cbv zeta. unfold playCycle, run.
  cbn [fold_left].
  rewrite !react_playback by exact I. cbn [handle].
  unfold utteranceBegins. rewrite Hq, Hc.
  unfold utteranceEnds. cbn [upd_synth synth current].
  unfold timerFires. cbn [set_timers timers upd_synth].
  rewrite Ht. cbn [app utteranceOf utt_onend sc_index sc_chunks sc_voices].
  rewrite Nat.add_1_r.
  destruct (Nat.ltb_spec (S k) (length chunks)) as [Hin|Hout].
  - rewrite speakChunk_in_range by exact Hin.
    unfold queuedAt. cbn. repeat split.
  - rewrite speakChunk_past_end by exact Hout. cbn. repeat split.
Qed.

Lemma map_nth_seq (l : list string) :
  forall m, m <= length l ->
    map (fun i => nth i l "") (seq 0 m) = firstn m l.
Proof.
  induction l as [|x l IH]; intros m Hm.
  - destruct m; [reflexivity | simpl in Hm; lia].
  - destruct m as [|m]; [reflexivity|].
    cbn [seq map firstn nth]. rewrite <- seq_shift, map_map.
    cbn [nth]. rewrite IH by (simpl in Hm; lia). reflexivity.
Qed.

Lemma cycles_S (n : nat) (w : World) :
  run (cycles (S n)) w = run (cycles n) (run playCycle w).
Proof. cbn [cycles]. apply run_app. Qed.

Lemma cycles_snoc (n : nat) (w : World) :
  run (cycles (S n)) w = run playCycle (run (cycles n) w).
Proof.
  revert w. induction n as [|n IH]; intros w.
  - cbn [cycles]. now rewrite app_nil_r.
  - rewrite cycles_S, IH, <- cycles_S. reflexivity.
Qed.

(** The state of a playback after [k] utterances were played, while
    there is one more to play. *)
Lemma playback_progress (chunks : list string)
    (vs : list SpeechSynthesisVoice) (w0 : World) :
  queuedAt chunks vs 0 w0 -> isSpeaking (ui w0) = true ->
  forall k, k < length chunks ->
    queuedAt chunks vs k (run (cycles k) w0)
    /\ isSpeaking (ui (run (cycles k) w0)) = true
    /\ submitted (run (cycles k) w0)
       = submitted w0
           ++ map (fun i => utteranceOf {| sc_chunks := chunks;
                                           sc_index := i;
                                           sc_voices := vs |})
                (seq 1 k).
Proof.
  intros Hq Hs k. induction k as [|k IH]; intros Hk.
  - cbn. rewrite app_nil_r. auto.
  - destruct IH as (Hqk & Hsk & Hsub); [lia|].
    rewrite cycles_snoc.
    destruct (cycle_step chunks vs k _ Hqk) as (_ & Hstep).
    destruct (Nat.ltb_spec (S k) (length chunks)); [|lia].
    destruct Hstep as (Hq' & Hsub' & Hs').
    split; [assumption|]. split; [congruence|].
    rewrite Hsub', Hsub, <- app_assoc.
    rewrite seq_S, map_app. reflexivity.
Qed.

End Sequencing.

(** Property X8: a playback started with voices loaded on an idle
    capability runs through all the chunks, one after the other.  While
    one more chunk remains, after [k] utterances were played to their
    end, [isSpeaking] is true and the texts submitted are the first
    [k + 1] chunks in order.  When as many utterances were played as
    there are chunks, [isSpeaking] is false, exactly the chunks were
    submitted, each once and in order, and nothing is queued, spoken or
    scheduled any more. *)
Theorem playback_runs_through_all_chunks
    (text : string) (voice : SpeechSynthesisVoice)
    (others : list SpeechSynthesisVoice) (w : World) :
  queue (synth w) = [] -> current (synth w) = None -> timers w = [] ->
  getVoices w = voice :: others ->
  let chunks := computeChunks text in
  let started := chunkAndSpeak text w in
  (forall k, k < length chunks ->
     isSpeaking (ui (run (cycles k) started)) = true
     /\ map utt_text (submitted (run (cycles k) started))
        = map utt_text (submitted w) ++ firstn (S k) chunks)
  /\ isSpeaking (ui (run (cycles (length chunks)) started)) = false
  /\ map utt_text (submitted (run (cycles (length chunks)) started))
     = map utt_text (submitted w) ++ chunks
  /\ queue (synth (run (cycles (length chunks)) started)) = []
  /\ current (synth (run (cycles (length chunks)) started)) = None
  /\ timers (run (cycles (length chunks)) started) = [].
Proof.
  intros Hq Hc Ht Hv. cbv zeta.
  pose proof (computeChunks_nonempty text) as Hne.
  set (chunks := computeChunks text) in *.
  assert (Hlen : 0 < length chunks)
    by (destruct chunks; [congruence | simpl; lia]).
  assert (Hstart : chunkAndSpeak text w
                   = upd_ui (setIsSpeaking true)
                       (speak (utteranceOf {| sc_chunks := chunks;
                                              sc_index := 0;
                                              sc_voices := voice :: others |})
                          w)).
  { unfold chunkAndSpeak. fold chunks. cbv zeta. rewrite Hv.
    cbn [length Nat.ltb Nat.leb]. now rewrite speakChunk_in_range. }
  assert (Hq0 : queuedAt chunks (voice :: others) 0 (chunkAndSpeak text w)).
  { rewrite Hstart. unfold queuedAt. cbn. rewrite Hq. auto. }
  assert (Hs0 : isSpeaking (ui (chunkAndSpeak text w)) = true)
    by (rewrite Hstart; reflexivity).
  assert (Hsub0 : submitted (chunkAndSpeak text w)
                  = submitted w
                      ++ [utteranceOf {| sc_chunks := chunks; sc_index := 0;
                                         sc_voices := voice :: others |}])
    by (rewrite Hstart; reflexivity).
  assert (Htexts : forall k, k < length chunks ->
            map utt_text
              (submitted (chunkAndSpeak text w)
                 ++ map (fun i => utteranceOf
                                    {| sc_chunks := chunks; sc_index := i;
                                       sc_voices := voice :: others |})
                      (seq 1 k))
            = map utt_text (submitted w) ++ firstn (S k) chunks).
  { intros k Hk. rewrite Hsub0, <- app_assoc, !map_app.
    f_equal. rewrite <- (map_nth_seq chunks (S k)) by lia.
    cbn [seq map]. rewrite map_map. reflexivity. }
  pose proof (playback_progress chunks (voice :: others) _ Hq0 Hs0) as Hprog.
  split.
  - intros k Hk. destruct (Hprog k Hk) as (_ & Hs & Hsub).
    split; [assumption|]. rewrite Hsub. now apply Htexts.
  - destruct (length chunks) as [|n] eqn:En; [lia|].
    destruct (Hprog n) as (Hqn & _ & Hsub); [lia|].
    rewrite cycles_snoc.
    destruct (cycle_step chunks (voice :: others) n _ Hqn) as (_ & Hstep).
    rewrite En, Nat.ltb_irrefl in Hstep.
    destruct Hstep as (Hq' & Hc' & Ht' & Hsub' & Hs').
    repeat split; try assumption.
    rewrite Hsub', Hsub, Htexts by lia.
    rewrite <- En, firstn_all. reflexivity.
Qed.

Lemma playback_runs_through_all_chunks_witness :
  queue (synth (mounted true ["Alice"])) = []
  /\ current (synth (mounted true ["Alice"])) = None
  /\ timers (mounted true ["Alice"]) = []
  /\ getVoices (mounted true ["Alice"]) = ["Alice"]
  /\ isSpeaking
       (ui (run (cycles (length (computeChunks twoChunkReply)))
              (chunkAndSpeak twoChunkReply (mounted true ["Alice"]))))
     = false.
Proof.
  repeat (split; [reflexivity|]).
  apply (playback_runs_through_all_chunks twoChunkReply "Alice" []
           (mounted true ["Alice"])); reflexivity.
Defined.

Section Handler.

Lemma generationEffect_synth (w : World) :
  synth (generationEffect w) = synth w.
Proof.
  unfold generationEffect, generateAIResponse_call.
  destruct (negb (isListening (ui w)) && JS.truthy (JS.trim (text (ui w))));
    [|reflexivity].
  destruct (JS.truthy (JS.trim (text (ui w)))); reflexivity.
Qed.

Lemma handle_keeps_handler (ev : Event) (w : World) :
  handlerStored w = true -> handlerStored (handle ev w) = true.
Proof.
  unfold handlerStored. intros H.
  destruct (onvoiceschanged (synth w)) as [stored|] eqn:E;
    [clear H | discriminate].
  destruct ev as [ | | | | | | | |o| | | | ]; cbn [handle];
    try destruct (pendingCalls w);
    try destruct o as [generatedText|[message|shown]];
    repeat unfold_handlers; cbn -[computeChunks];
    rewrite ?E;
    repeat (break_inner; cbn -[computeChunks]; rewrite ?E);
    first [discriminate | reflexivity].
Qed.

Lemma react_keeps_handler (ev : Event) (w : World) :
  handlerStored w = true -> handlerStored (react ev w) = true.
Proof.
  intros H. unfold react.
  destruct (depsChanged (ui w) (ui (handle ev w))).
  - unfold handlerStored. rewrite generationEffect_synth.
    now apply handle_keeps_handler.
  - now apply handle_keeps_handler.
Qed.

End Handler.



(** Property X10: between two chunks, when one utterance has ended and
    the call for the next waits in the timer queue, the capability is
    not speaking, so [stopSpeaking] changes nothing: [isSpeaking] keeps
    its value and the next chunk is submitted when the timer fires. *)
Theorem stop_between_chunks_does_nothing
    (c : SpeakChunkCall) (ts : list SpeakChunkCall) (w : World) :
  current (synth w) = None ->
  timers w = c :: ts ->
  sc_index c < length (sc_chunks c) ->
  react StopSpeaking w = w
  /\ submitted (react TimerFires (react StopSpeaking w))
     = submitted w ++ [utteranceOf c]
  /\ isSpeaking (ui (react TimerFires (react StopSpeaking w)))
     = isSpeaking (ui w).
Proof.
  intros Hc Ht Hin.
  assert (Hstop : react StopSpeaking w = w).
  { apply stop_when_not_speaking. unfold speaking. now rewrite Hc. }
  rewrite Hstop. split; [reflexivity|].
  rewrite react_playback by exact I. cbn [handle].
  unfold timerFires. rewrite Ht, speakChunk_in_range by exact Hin.
  split; reflexivity.
Qed.

Lemma stop_between_chunks_does_nothing_witness :
  current (synth betweenChunks) = None
  /\ timers betweenChunks
     = [{| sc_chunks := computeChunks twoChunkReply; sc_index := 1;
           sc_voices := ["Alice"] |}]
  /\ 1 < length (computeChunks twoChunkReply)
  /\ isSpeaking (ui betweenChunks) = true
  /\ (react StopSpeaking betweenChunks = betweenChunks
      /\ submitted (react TimerFires (react StopSpeaking betweenChunks))
         = submitted betweenChunks
             ++ [utteranceOf {| sc_chunks := computeChunks twoChunkReply;
                                sc_index := 1;
                                sc_voices := ["Alice"] |}]
      /\ isSpeaking
           (ui (react TimerFires (react StopSpeaking betweenChunks)))
         = isSpeaking (ui betweenChunks)).
Proof.
  split; [reflexivity|]. split; [reflexivity|].
  split; [vm_compute; repeat constructor|]. split; [reflexivity|].
  apply (stop_between_chunks_does_nothing
           {| sc_chunks := computeChunks twoChunkReply; sc_index := 1;
              sc_voices := ["Alice"] |} [] betweenChunks);
    [reflexivity | reflexivity | vm_compute; repeat constructor].
Defined.

(** Property X11: while the voice list is empty, [chunkAndSpeak] only
    stores a handler, and a second call replaces the handler of the
    first.  When the voices arrive, playback starts with the first chunk
    of the text of the last call; the text of the earlier call is never
    spoken. *)
Theorem later_deferred_call_replaces_earlier
    (earlier later : string) (vs : list SpeechSynthesisVoice) (w : World) :
  getVoices w = [] ->
  let waiting := chunkAndSpeak later (chunkAndSpeak earlier w) in
  submitted waiting = submitted w
  /\ isSpeaking (ui waiting) = isSpeaking (ui w)
  /\ onvoiceschanged (synth waiting) = Some (computeChunks later)
  /\ submitted (react (VoicesChanged vs) waiting)
     = submitted w
         ++ [utteranceOf {| sc_chunks := computeChunks later;
                            sc_index := 0; sc_voices := vs |}]
  /\ isSpeaking (ui (react (VoicesChanged vs) waiting)) = true.
Proof.
  intros Hv. cbv zeta.
  assert (Hdefer : forall t x, getVoices x = [] ->
            chunkAndSpeak t x
            = set_onvoiceschanged (Some (computeChunks t)) x).
  { intros t x Hx. unfold chunkAndSpeak. cbv zeta. now rewrite Hx. }
  rewrite (Hdefer earlier w Hv).
  rewrite Hdefer by exact Hv.
  rewrite react_playback by exact I. cbn [handle].
  unfold voicesChanged. cbn -[computeChunks].
  rewrite speakChunk_in_range.
  - repeat split.
  - pose proof (computeChunks_nonempty later).
    cbn [sc_index sc_chunks].
    destruct (computeChunks later); [congruence | simpl; lia].
Qed.

Lemma later_deferred_call_replaces_earlier_witness :
  getVoices (mounted true []) = []
  /\ map utt_text
       (submitted
          (react (VoicesChanged ["Alice"])
             (chunkAndSpeak "second reply"
                (chunkAndSpeak "first reply" (mounted true [])))))
     = ["second reply"].
Proof.
  split; [reflexivity|].
  destruct (later_deferred_call_replaces_earlier
              "first reply" "second reply" ["Alice"] (mounted true [])
              eq_refl) as (_ & _ & _ & -> & _).
  reflexivity.
Defined.

(** Property X12: a voices-changed handler, once stored, is never
    removed: whatever happens to the widget afterwards, a handler is
    still stored. *)
Theorem voices_changed_handler_is_never_removed
    (evs : list Event) (w : World) :
  handlerStored w = true -> handlerStored (run evs w) = true.
Proof.
  revert w. induction evs as [|ev evs IH]; intros w H; [exact H|].
  change (run (ev :: evs) w) with (run evs (react ev w)).
  apply IH. now apply react_keeps_handler.
Qed.

Lemma voices_changed_handler_is_never_removed_witness :
  handlerStored (chunkAndSpeak "Hi there!" (mounted true [])) = true
  /\ handlerStored
       (run [VoicesChanged ["Alice"]; UtteranceBegins; StopSpeaking;
             StartListening; SpeakAgain]
          (chunkAndSpeak "Hi there!" (mounted true [])))
     = true.
Proof.
  split; [reflexivity|].
  apply voices_changed_handler_is_never_removed. reflexivity.
Defined.

(** Property X13: whenever a handler is stored for a non-empty chunk
    sequence, a voices-changed notification submits the first chunk of
    that sequence, with the first voice of the new list, sets
    [isSpeaking] to true and leaves the handler stored: every further
    change of the voice list starts the playback over. *)
Theorem voices_changed_restarts_playback
    (chunk : string) (rest : list string)
    (vs : list SpeechSynthesisVoice) (w : World) :
  onvoiceschanged (synth w) = Some (chunk :: rest) ->
  let w' := react (VoicesChanged vs) w in
  submitted w'
  = submitted w
      ++ [{| utt_text := chunk; utt_voice := hd_error vs; utt_rate := 11;
             utt_onend := {| sc_chunks := chunk :: rest; sc_index := 1;
                             sc_voices := vs |} |}]
  /\ isSpeaking (ui w') = true
  /\ getVoices w' = vs
  /\ onvoiceschanged (synth w') = Some (chunk :: rest).
Proof.
  intros H. cbv zeta. rewrite react_playback by exact I. cbn [handle].
  unfold voicesChanged. cbn. rewrite H. cbn. repeat split. exact H.
Qed.

Lemma voices_changed_restarts_playback_witness :
  onvoiceschanged (synth (chunkAndSpeak "Hi there!" (mounted true [])))
  = Some ["Hi there!"]
  /\ map utt_text
       (submitted
          (react (VoicesChanged ["Bob"])
             (react (VoicesChanged ["Alice"])
                (chunkAndSpeak "Hi there!" (mounted true [])))))
     = ["Hi there!"; "Hi there!"].
Proof.
  split; [reflexivity|].
  destruct (voices_changed_restarts_playback "Hi there!" [] ["Bob"]
              (react (VoicesChanged ["Alice"])
                 (chunkAndSpeak "Hi there!" (mounted true [])))
              eq_refl) as (-> & _).
  reflexivity.
Defined.

(** Property X14: [chunkAndSpeak] never interrupts: for every text, the
    utterance being spoken and the pending timers are left alone and
    nothing is removed from the queue.  With voices loaded exactly one
    utterance, carrying the first chunk, is added behind what is queued;
    with no voice loaded nothing is added. *)
Theorem chunkAndSpeak_queues_behind (text : string) (w : World) :
  current (synth (chunkAndSpeak text w)) = current (synth w)
  /\ timers (chunkAndSpeak text w) = timers w
  /\ match getVoices w with
     | [] => queue (synth (chunkAndSpeak text w)) = queue (synth w)
             /\ submitted (chunkAndSpeak text w) = submitted w
     | voice :: others =>
         let first := utteranceOf {| sc_chunks := computeChunks text;
                                     sc_index := 0;
                                     sc_voices := voice :: others |} in
         queue (synth (chunkAndSpeak text w)) = queue (synth w) ++ [first]
         /\ submitted (chunkAndSpeak text w) = submitted w ++ [first]
         /\ utt_text first = hd "" (computeChunks text)
     end.
Proof.
  pose proof (computeChunks_nonempty text) as Hne.
  unfold chunkAndSpeak. cbv zeta.
  destruct (getVoices w) as [|voice others] eqn:Hv.
  - repeat split.
  - cbn [length Nat.ltb Nat.leb].
    rewrite speakChunk_in_range
      by (cbn [sc_index sc_chunks];
          destruct (computeChunks text); [congruence | simpl; lia]).
    cbn -[computeChunks]. repeat split.
    destruct (computeChunks text); [congruence | reflexivity].
Qed.

(* ===================================================================== *)
(** ** What is rendered while the widget is busy *)
(* ===================================================================== *)

Section Busy.







End Busy.

